(** * Speaker-segment detection and clip assembly: a shallow embedding

    The Python sources embedded here are
    - [ai_agent/detect_theodore.py]  (module [DetectTheodore]),
    - [ai_agent/detect_batch.py]     (module [DetectBatch]),
    - [ai_agent/generate_shorts.py]  (module [GenerateShorts]).

    Python [int] is [Z]; Python [float] is modelled by the rationals [Q]
    (exact arithmetic, no NaN); a Python [str] is a list of Unicode code
    points; a call that may raise is an [outcome]. *)

From Stdlib Require Import ZArith QArith Qround Lia List Sorted Permutation.
From Stdlib Require Import Ascii String Lqa DecimalPos DecimalN.
From Equations Require Import Equations.
From stdpp Require Import base list sorting.
Import ListNotations.

Local Open Scope Z_scope.

(** ** Python run-time values shared by the three modules *)

Module Py.

(** A string is the list of its code points. *)
Definition char : Type := N.
Definition str : Type := list char.

(** An ASCII literal as a [str]. *)
Definition lit (s : string) : str :=
  map N_of_ascii (list_ascii_of_string s).

(** The result of evaluating a call: a value, or an exception with its
    message ([str(e)]). *)
Inductive outcome (A : Type) : Type :=
| Returned (a : A)
| Raised (msg : str).
Arguments Returned {A} a.
Arguments Raised {A} msg.

Definition is_raised {A} (o : outcome A) : bool :=
  match o with Raised _ => true | Returned _ => false end.

(** [x < y] and [x >= y] on floats. *)
Definition flt (x y : Q) : bool := negb (Qle_bool y x).
Definition fge (x y : Q) : bool := Qle_bool y x.

(** [int(x)] of a float truncates towards zero. *)
Definition int_of_float (x : Q) : Z :=
  if Qle_bool 0 x then Qfloor x else Qceiling x.

(** [x // y] and [x % y] (floor division and its remainder). *)
Definition floordiv (x y : Q) : Q := inject_Z (Qfloor (x / y)).
Definition fmod (x y : Q) : Q := (x - y * floordiv x y)%Q.

(** *** Characters *)

Definition LF : char := 10%N.
Definition SPACE : char := 32%N.
Definition PLUS : char := 43%N.
Definition MINUS : char := 45%N.
Definition DOT : char := 46%N.
Definition ZERO : char := 48%N.
Definition COLON : char := 58%N.
Definition UNDERSCORE : char := 95%N.
(** U+2192 RIGHTWARDS ARROW *)
Definition ARROW : char := 8594%N.

(** [c.isspace()]: the Unicode white-space code points. *)
Definition isspace (c : char) : bool :=
  ((9 <=? c) && (c <=? 13) || (28 <=? c) && (c <=? 32) ||
   (c =? 133) || (c =? 160) || (c =? 5760) ||
   (8192 <=? c) && (c <=? 8202) || (c =? 8232) || (c =? 8233) ||
   (c =? 8239) || (c =? 8287) || (c =? 12288))%N.

(** [c.isdigit()], on the ASCII range (the only digits the detector ever
    writes). *)
Definition isdigit (c : char) : bool := ((48 <=? c) && (c <=? 57))%N.

(** *** [strip], [split], [join], [in] *)

Fixpoint lstrip (s : str) : str :=
  match s with
  | c :: r => if isspace c then lstrip r else s
  | [] => []
  end.

Definition rstrip (s : str) : str := rev (lstrip (rev s)).
Definition strip (s : str) : str := rstrip (lstrip s).

(** [s.split(sep)] for a one-character separator. *)
Fixpoint split (sep : char) (s : str) : list str :=
  match s with
  | [] => [[]]
  | c :: r =>
      if (c =? sep)%N then [] :: split sep r
      else match split sep r with
           | p :: ps => (c :: p) :: ps
           | [] => [[c]]
           end
  end.

(** [sep.join(parts)]. *)
Fixpoint join (sep : str) (parts : list str) : str :=
  match parts with
  | [] => []
  | [p] => p
  | p :: ps => p ++ sep ++ join sep ps
  end.

(** [c in s]. *)
Definition contains (c : char) (s : str) : bool := existsb (N.eqb c) s.

(** *** Decimal numerals *)

Fixpoint str_of_uint (u : Decimal.uint) : str :=
  match u with
  | Decimal.Nil => []
  | Decimal.D0 u => 48%N :: str_of_uint u
  | Decimal.D1 u => 49%N :: str_of_uint u
  | Decimal.D2 u => 50%N :: str_of_uint u
  | Decimal.D3 u => 51%N :: str_of_uint u
  | Decimal.D4 u => 52%N :: str_of_uint u
  | Decimal.D5 u => 53%N :: str_of_uint u
  | Decimal.D6 u => 54%N :: str_of_uint u
  | Decimal.D7 u => 55%N :: str_of_uint u
  | Decimal.D8 u => 56%N :: str_of_uint u
  | Decimal.D9 u => 57%N :: str_of_uint u
  end.

(** The digits of [abs(n)]. *)
Definition digits (n : Z) : str := str_of_uint (N.to_uint (Z.abs_N n)).

(** [str(n)] and [f"{n}"] for an int. *)
Definition str_of_int (n : Z) : str :=
  if n <? 0 then MINUS :: digits n else digits n.

(** [f"{n:02d}"]: sign-aware zero padding to width 2. *)
Definition zfill (width : nat) (s : str) : str :=
  repeat ZERO (width - length s) ++ s.

Definition format_02d (n : Z) : str :=
  if n <? 0 then MINUS :: zfill 1 (digits n) else zfill 2 (digits n).

Definition push_digit (c : char) (u : Decimal.uint) : Decimal.uint :=
  match (c - 48)%N with
  | 0%N => Decimal.D0 u
  | 1%N => Decimal.D1 u
  | 2%N => Decimal.D2 u
  | 3%N => Decimal.D3 u
  | 4%N => Decimal.D4 u
  | 5%N => Decimal.D5 u
  | 6%N => Decimal.D6 u
  | 7%N => Decimal.D7 u
  | 8%N => Decimal.D8 u
  | _ => Decimal.D9 u
  end.

(** The numeral grammar of [int()]: digits, single underscores allowed
    between two digits.  [None] stands for [ValueError]. *)
Fixpoint uint_of_str (after_digit : bool) (s : str) : option Decimal.uint :=
  match s with
  | [] => if after_digit then Some Decimal.Nil else None
  | c :: r =>
      if isdigit c then option_map (push_digit c) (uint_of_str true r)
      else if (c =? UNDERSCORE)%N && after_digit then uint_of_str false r
      else None
  end.

Definition nat_of_str (s : str) : option Z :=
  option_map (fun u => Z.of_N (N.of_uint u)) (uint_of_str false s).

(** [int(s)] for a string: surrounding white space, an optional sign, a
    numeral of ASCII digits.  [None] stands for [ValueError]. *)
Definition int_of_str (s : str) : option Z :=
  match strip s with
  | c :: r =>
      if (c =? PLUS)%N then nat_of_str r
      else if (c =? MINUS)%N then option_map Z.opp (nat_of_str r)
      else nat_of_str (c :: r)
  | [] => None
  end.

(** [f"{n:03d}"]: sign-aware zero padding to width 3. *)
Definition format_03d (n : Z) : str :=
  if n <? 0 then MINUS :: zfill 2 (digits n) else zfill 3 (digits n).

(** [s.replace(old, new)] for a one-character [old]. *)
Definition replace (old : char) (new : str) (s : str) : str :=
  flat_map (fun c => if (c =? old)%N then new else [c]) s.

End Py.
Import Py.

(** ** detect_theodore.py *)

Module DetectTheodore.

Definition SEGMENT_DURATION_SEC : Z := 3.
Definition SIMILARITY_THRESHOLD : Q := 95 # 100.
Definition MIN_CONSECUTIVE_SEGMENTS : Z := 1.

(** *** Step 6: the scan over the windows

    A window of the decoded audio is abstracted by what the loop body
    observes of it: its peak amplitude [np.max(np.abs(segment))] and the
    outcome of the [try] body ([get_embedding] followed by
    [calculate_similarity]), which may raise. *)
Record window : Type := Window
  { peak : Q;
    embed : outcome Q }.

Record scan_state : Type := ScanState
  { all_similarities : list (Z * Q);
    detections : list Z }.

(** [all_similarities.append((i, similarity))] followed by
    [if similarity >= SIMILARITY_THRESHOLD: detections.append(i)]. *)
Definition record_score (st : scan_state) (score : Z * Q) : scan_state :=
  {| all_similarities := all_similarities st ++ [score];
     detections :=
       if fge (snd score) SIMILARITY_THRESHOLD
       then detections st ++ [fst score]
       else detections st |}.

(** One iteration of [for i in range(total_segments)]. *)
Definition scan_step (st : scan_state) (iw : Z * window) : scan_state :=
  let (i, w) := iw in
  if flt (peak w) (5 # 1000) then st                (* silent: continue *)
  else match embed w with
       | Returned similarity => record_score st (i, similarity)
       | Raised _ => st                             (* except: continue *)
       end.

(** [enumerate]-style pairing of the windows with [range(total_segments)]. *)
Definition indexed {A} (l : list A) : list (Z * A) :=
  imap (fun (i : nat) (a : A) => (Z.of_nat i, a)) l.

Definition scan (ws : list window) : scan_state :=
  fold_left scan_step (indexed ws) (ScanState [] []).

(** The detections that a given series of scores leaves behind. *)
Definition detections_of_scores (scores : list (Z * Q)) : list Z :=
  detections (fold_left record_score scores (ScanState [] [])).

(** *** Step 7: consolidation of consecutive detections *)

Record run_state : Type := RunState
  { current_start : Z;
    current_end : Z;
    consolidated_segments : list (Z * Z) }.

(** The guarded [consolidated_segments.append((start_sec, end_sec))]. *)
Definition close_run (st : run_state) : list (Z * Z) :=
  if MIN_CONSECUTIVE_SEGMENTS <=? current_end st - current_start st + 1
  then consolidated_segments st ++
       [(current_start st * SEGMENT_DURATION_SEC,
         (current_end st + 1) * SEGMENT_DURATION_SEC)]
  else consolidated_segments st.

(** Body of [for idx in detections[1:]]. *)
Definition run_step (st : run_state) (idx : Z) : run_state :=
  if idx =? current_end st + 1
  then {| current_start := current_start st;
          current_end := idx;
          consolidated_segments := consolidated_segments st |}
  else {| current_start := idx;
          current_end := idx;
          consolidated_segments := close_run st |}.

Definition consolidate (detections : list Z) : list (Z * Z) :=
  match detections with
  | [] => []
  | d0 :: rest => close_run (fold_left run_step rest (RunState d0 d0 []))
  end.

(** Steps 6 and 7 together, from the windows of the decoded audio. *)
Definition detect_theodore_segments (ws : list window) : list (Z * Z) :=
  consolidate (detections (scan ws)).

(** [sum(end - start for start, end in consolidated_segments)] *)
Definition total_theodore_time (consolidated_segments : list (Z * Z)) : Z :=
  fold_left (fun acc seg => acc + (snd seg - fst seg)) consolidated_segments 0.

(** *** Step 8: the timestamp file *)

(** [seconds] is an int for the segments of the consolidation and a float
    elsewhere; both are numbers of [Q]. *)
Definition format_time (seconds : Q) : str :=
  let hours := int_of_float (floordiv seconds 3600) in
  let minutes := int_of_float (floordiv (fmod seconds 3600) 60) in
  let secs := int_of_float (fmod seconds 60) in
  format_02d hours ++ [COLON] ++ format_02d minutes ++ [COLON] ++
  format_02d secs.

(** ["Séquences où le Frère Théodore parle:\n"] *)
Definition header : str :=
  lit "S" ++ [233%N] ++ lit "quences o" ++ [249%N] ++ lit " le Fr" ++
  [232%N] ++ lit "re Th" ++ [233%N] ++ lit "odore parle:" ++ [LF].

(** ["="*40 + "\n\n"] *)
Definition rule : str := repeat 61%N 40 ++ [LF; LF].

(** [f"{i}. {format_time(start)} → {format_time(end)}\n"] *)
Definition timestamp_line (i : Z) (seg : Q * Q) : str :=
  str_of_int i ++ [DOT; SPACE] ++ format_time (fst seg) ++
  [SPACE; ARROW; SPACE] ++ format_time (snd seg) ++ [LF].

(** Everything written to [theodore_timestamps.txt], with
    [enumerate(consolidated_segments, 1)]; the file is written when there
    is at least one segment. *)
Definition timestamps_text (segs : list (Q * Q)) : str :=
  header ++ rule ++
  concat (imap (fun (i : nat) seg => timestamp_line (Z.of_nat i + 1) seg) segs).

(** The segments of the consolidation are pairs of ints. *)
Definition as_numbers (segs : list (Z * Z)) : list (Q * Q) :=
  map (fun seg => (inject_Z (fst seg), inject_Z (snd seg))) segs.

End DetectTheodore.

(** ** detect_batch.py *)

Module DetectBatch.

Definition SEGMENT_DURATION_SEC : Z := 3.
Definition SIMILARITY_THRESHOLD : Q := 95 # 100.

Inductive status_t : Type := error_status | success_status.

(** [{'start': .., 'end': .., 'similarity': ..}] *)
Record match_dict : Type := Match
  { m_start : Z; m_end : Z; m_similarity : Q }.

(** [{'start': .., 'end': ..}] *)
Record segment_dict : Type := Segment
  { seg_start : Z; seg_end : Z }.

Record result_dict : Type := Result
  { video : str;
    status : status_t;
    segments : list segment_dict;
    total_duration : Q;
    theodore_duration : Z;
    error : option str }.

(** What the loop body observes of window [i]: whether
    [len(segment) < sr], and the outcome of normalising, embedding and
    comparing it, which may raise. *)
Record window : Type := Window
  { too_short : bool;
    similarity : outcome Q }.

(** What one worker observes of the world. *)
Record task : Type := Task
  { video_name : str;              (* os.path.basename(video_path) *)
    voice_print_exists : bool;     (* os.path.exists(VOICE_PRINT_FILE) *)
    (* torch.load, from_hparams, from_file, export, sf.read: the decoded
       duration len(signal) / sr and the windows, unless one of them raises *)
    decoded : outcome (Q * (Z -> window));
    cleanup : outcome unit }.      (* os.remove(temp_wav) *)

(** The loop [for i in range(num_segments)], with no handler of its own:
    an exception leaves the loop. *)
Fixpoint scan (windows : Z -> window) (indices : list Z)
    (matches : list match_dict) : outcome (list match_dict) :=
  match indices with
  | [] => Returned matches
  | i :: rest =>
      let w := windows i in
      if too_short w then scan windows rest matches
      else match similarity w with
           | Raised msg => Raised msg
           | Returned sim =>
               scan windows rest
                 (if fge sim SIMILARITY_THRESHOLD
                  then matches ++
                       [Match (i * SEGMENT_DURATION_SEC)
                              ((i + 1) * SEGMENT_DURATION_SEC) sim]
                  else matches)
           end
  end.

(** [range(n)] *)
Definition range (n : Z) : list Z :=
  map Z.of_nat (seq 0 (Z.to_nat n)).

Record merge_state : Type := MergeState
  { current_start : Z;
    current_end : Z;
    consolidated : list segment_dict }.

(** Body of [for m in matches[1:]]. *)
Definition merge_step (st : merge_state) (m : match_dict) : merge_state :=
  if m_start m <=? current_end st
  then {| current_start := current_start st;
          current_end := m_end m;
          consolidated := consolidated st |}
  else {| current_start := m_start m;
          current_end := m_end m;
          consolidated :=
            consolidated st ++ [Segment (current_start st) (current_end st)] |}.

(** The block under [if matches:]; otherwise [result['segments']] keeps
    its initial [[]]. *)
Definition consolidate (matches : list match_dict) : list segment_dict :=
  match matches with
  | [] => []
  | m0 :: rest =>
      let st := fold_left merge_step rest (MergeState (m_start m0) (m_end m0) []) in
      consolidated st ++ [Segment (current_start st) (current_end st)]
  end.

Definition sum_durations (segs : list segment_dict) : Z :=
  fold_left (fun acc s => acc + (seg_end s - seg_start s)) segs 0.

(** ["Empreinte vocale non trouvée"] *)
Definition MSG_NO_VOICE_PRINT : str :=
  lit "Empreinte vocale non trouv" ++ [233%N] ++ lit "e".

Definition analyze_single_video (t : task) : result_dict :=
  let result := Result (video_name t) error_status [] 0 0 None in
  if negb (voice_print_exists t)
  then Result (video result) (status result) (segments result)
              (total_duration result) (theodore_duration result)
              (Some MSG_NO_VOICE_PRINT)
  else
    match decoded t with
    | Raised msg =>
        Result (video result) (status result) (segments result)
               (total_duration result) (theodore_duration result) (Some msg)
    | Returned (duration, windows) =>
        let num_segments :=
          int_of_float (duration / inject_Z SEGMENT_DURATION_SEC) in
        match scan windows (range num_segments) [] with
        | Raised msg =>
            Result (video result) (status result) (segments result)
                   duration (theodore_duration result) (Some msg)
        | Returned matches =>
            let segs := consolidate matches in
            match cleanup t with
            | Returned _ =>
                Result (video result) success_status segs duration
                       (sum_durations segs) None
            | Raised msg =>
                Result (video result) success_status segs duration
                       (sum_durations segs) (Some msg)
            end
        end
    end.

(** *** The coordinator ([main], the executor block)

    A future is the submitted task together with what [future.result()]
    gives: the worker's return value, or an exception raised on the way
    (for instance by the imports, which are outside the worker's [try]). *)
Record future : Type := Future
  { f_task : task;
    f_process : outcome unit }.

Definition future_result (f : future) : outcome result_dict :=
  match f_process f with
  | Raised msg => Raised msg
  | Returned _ => Returned (analyze_single_video (f_task f))
  end.

(** Body of [for future in as_completed(future_to_video)]. *)
Definition collect (results : list result_dict) (f : future) : list result_dict :=
  match future_result f with
  | Returned result => results ++ [result]
  | Raised msg =>
      results ++ [Result (video_name (f_task f)) error_status [] 0 0 (Some msg)]
  end.

(** [as_completed] yields the submitted futures in some order; [results]
    is what the loop has appended when it ends. *)
Definition batch_results (submitted : list future) (results : list result_dict) : Prop :=
  exists completion_order : list future,
    Permutation completion_order submitted /\
    results = fold_left collect completion_order [].

(** The figures of the summary that [main] prints. *)
Definition success_count (results : list result_dict) : Z :=
  fold_left (fun acc r =>
               match status r with
               | success_status => acc + 1
               | error_status => acc
               end) results 0.

Definition total_theodore_time (results : list result_dict) : Z :=
  fold_left (fun acc r => acc + theodore_duration r) results 0.

Definition total_video_time (results : list result_dict) : Q :=
  fold_left (fun acc r => (acc + total_duration r)%Q) results 0%Q.

End DetectBatch.

(** ** generate_shorts.py *)

Module GenerateShorts.

Definition SHORT_MIN_DURATION : Z := 3.
Definition SHORT_MAX_DURATION : Z := 60.
Definition SHORT_TARGET_DURATION : Z := 30.

Definition WORDS_PER_GROUP : Z := 4.
Definition MIN_WORD_DURATION : Q := 15 # 100.

(** *** [group_words_for_display] *)

(** A word [(start, end, word)] and a group
    [(group_start, group_end, group_text)] are the same kind of tuple. *)
Definition timed : Type := Q * Q * str.

Definition t_start (g : timed) : Q := fst (fst g).
Definition t_end (g : timed) : Q := snd (fst g).
Definition t_text (g : timed) : str := snd g.

Definition no_word : timed := (0%Q, 0%Q, []).

(** The group made of [current_group], which is never empty where the
    source builds one ([current_group[0]] and [current_group[-1]] are then
    its first and last words). *)
Definition make_group (current_group : list timed) : timed :=
  let group_start := t_start (hd no_word current_group) in
  let group_end := t_end (List.last current_group no_word) in
  let floor_ := (MIN_WORD_DURATION * inject_Z (Z.of_nat (length current_group)))%Q in
  let group_end :=
    if flt (group_end - group_start) floor_
    then (group_start + floor_)%Q
    else group_end in
  (group_start, group_end, join [SPACE] (map t_text current_group)).

Record group_state : Type := GroupState
  { groups : list timed;
    current_group : list timed }.

(** Body of [for start, end, word in word_timestamps]. *)
Definition group_step (words_per_group : Z) (st : group_state) (w : timed)
    : group_state :=
  let current := current_group st ++ [w] in
  if words_per_group <=? Z.of_nat (length current)
  then {| groups := groups st ++ [make_group current]; current_group := [] |}
  else {| groups := groups st; current_group := current |}.

(** The groups before the overlap sweep. *)
Definition build_groups (word_timestamps : list timed) (words_per_group : Z)
    : list timed :=
  let st := fold_left (group_step words_per_group) word_timestamps
                      (GroupState [] []) in
  match current_group st with
  | [] => groups st
  | _ :: _ => groups st ++ [make_group (current_group st)]
  end.

(** Body of [for i in range(1, len(groups))]: only [groups[i]] is
    assigned. *)
Definition sweep_step (groups : list timed) (i : nat) : list timed :=
  match groups !! i, groups !! (i - 1)%nat with
  | Some g, Some prev =>
      if flt (t_start g) (t_end prev)
      then <[i := (t_end prev, t_end g, t_text g)]> groups
      else groups
  | _, _ => groups
  end.

Definition resolve_overlaps (groups : list timed) : list timed :=
  fold_left sweep_step (seq 1 (length groups - 1)) groups.

Definition group_words_for_display (word_timestamps : list timed)
    (words_per_group : Z) : list timed :=
  match word_timestamps with
  | [] => []
  | _ :: _ => resolve_overlaps (build_groups word_timestamps words_per_group)
  end.

(** *** [read_timestamps] *)

(** [for line in f]: the lines of the decoded text, each with its line
    end. *)
Fixpoint file_lines (content : str) : list str :=
  match content with
  | [] => []
  | c :: r =>
      if (c =? LF)%N then [c] :: file_lines r
      else match file_lines r with
           | l :: ls => (c :: l) :: ls
           | [] => [[c]]
           end
  end.

(** ["HH:MM:SS"] to seconds; [None] stands for the [ValueError] or
    [IndexError] that the handler turns into [continue]. *)
Definition hms_seconds (s : str) : option Z :=
  let parts := split COLON s in
  h ← parts !! 0%nat ≫= int_of_str;
  m ← parts !! 1%nat ≫= int_of_str;
  sec ← parts !! 2%nat ≫= int_of_str;
  Some (h * 3600 + m * 60 + sec).

(** Body of [for line in f]. *)
Definition read_line (segments : list (Z * Z)) (line : str) : list (Z * Z) :=
  let line := strip line in
  if contains ARROW line && match line with c :: _ => isdigit c | [] => false end
  then
    match split ARROW line with
    | [before; after] =>
        let start_str := strip (List.last (split DOT before) []) in
        let end_str := strip after in
        match hms_seconds start_str, hms_seconds end_str with
        | Some start_sec, Some end_sec => segments ++ [(start_sec, end_sec)]
        | _, _ => segments
        end
    | _ => segments
    end
  else segments.

(** [None] is a missing file. *)
Definition read_timestamps (timestamps_file : option str) : list (Z * Z) :=
  match timestamps_file with
  | None => []
  | Some content => fold_left read_line (file_lines content) []
  end.

(** *** [split_into_shorts]

    The segments come from [read_timestamps], which builds them with
    [int()]: they are pairs of ints. *)

(** The loop [while current_start < end]. *)
Equations? split_long (current_start end_ : Z) (shorts : list (Z * Z))
    : list (Z * Z) by wf (Z.to_nat (end_ - current_start)) lt :=
  split_long current_start end_ shorts with Z_lt_dec current_start end_ := {
    | right _ => shorts
    | left _ =>
        let current_end := Z.min (current_start + SHORT_TARGET_DURATION) end_ in
        let remaining := end_ - current_end in
        let current_end :=
          if (0 <? remaining) && (remaining <? SHORT_MIN_DURATION)
          then end_ else current_end in
        let shorts :=
          if SHORT_MIN_DURATION <=? current_end - current_start
          then shorts ++ [(current_start, current_end)]
          else shorts in
        split_long current_end end_ shorts }.
Proof.
  subst current_end remaining current_end0.
  unfold SHORT_TARGET_DURATION, SHORT_MIN_DURATION.
  destruct (_ && _); lia.
Qed.

(** Body of [for start, end in segments]. *)
Definition split_segment (shorts : list (Z * Z)) (seg : Z * Z) : list (Z * Z) :=
  let (start, end_) := seg in
  let duration := end_ - start in
  if duration <=? SHORT_MAX_DURATION
  then if SHORT_MIN_DURATION <=? duration
       then shorts ++ [(start, end_)]
       else shorts
  else split_long start end_ shorts.

Definition split_into_shorts (segments : list (Z * Z)) : list (Z * Z) :=
  fold_left split_segment segments [].

(** A call of [split_into_shorts] on a list of int pairs.  The body has no
    [raise] and no check of its arguments, and none of its operations can
    fail on ints: the call returns. *)
Definition split_into_shorts_call (segments : list (Z * Z))
    : outcome (list (Z * Z)) :=
  Returned (split_into_shorts segments).

(** *** [sanitize_text_for_ffmpeg] *)

(** The characters removed: apostrophe, double quote, colon, backslash,
    square brackets, braces, parentheses, semicolon, percent. *)
Definition REMOVED : list char :=
  [39; 34; 58; 92; 91; 93; 123; 125; 40; 41; 59; 37]%N.

Definition COMMA : char := 44%N.

(** The dict [accents], in its order: accented letter, replacement. *)
Definition accents : list (char * char) :=
  [(233, 101); (232, 101); (234, 101); (235, 101);
   (224, 97); (226, 97); (228, 97);
   (249, 117); (251, 117); (252, 117);
   (238, 105); (239, 105);
   (244, 111); (246, 111);
   (231, 99);
   (201, 69); (200, 69); (202, 69);
   (192, 65); (194, 65);
   (217, 85); (219, 85);
   (206, 73);
   (212, 79);
   (199, 67)]%N.

Definition sanitize_text_for_ffmpeg (text : str) : str :=
  let clean := fold_left (fun clean c => replace c [] clean) REMOVED text in
  let clean := replace COMMA [SPACE] clean in
  let clean :=
    fold_left (fun clean ar => replace (fst ar) [snd ar] clean) accents clean in
  strip clean.

(** *** [create_ass_from_transcription]: the text of a dialogue line *)

Definition BACKSLASH : char := 92%N.
Definition LBRACE : char := 123%N.
Definition RBRACE : char := 125%N.

(** [clean_text]: backslashes doubled, then each brace preceded by a
    backslash. *)
Definition ass_clean_text (text : str) : str :=
  replace RBRACE [BACKSLASH; RBRACE]
    (replace LBRACE [BACKSLASH; LBRACE]
       (replace BACKSLASH [BACKSLASH; BACKSLASH] text)).

(** *** [generate_shorts]: what is extracted, and under which names *)

(** The shorts that [generate_shorts] goes on to extract; [None] when it
    returns before (no video, no timestamp file, or no segment read). *)
Definition planned_shorts (video_exists : bool) (timestamps_file : option str)
    : option (list (Z * Z)) :=
  if negb video_exists then None
  else match timestamps_file with
       | None => None
       | Some _ =>
           match read_timestamps timestamps_file with
           | [] => None
           | segments => Some (split_into_shorts segments)
           end
       end.

(** [f"short_{video_name}_{i:03d}_{int(start)}s-{int(end)}s.mp4"] *)
Definition output_name (video_name : str) (i start end_ : Z) : str :=
  lit "short_" ++ video_name ++ [UNDERSCORE] ++ format_03d i ++ [UNDERSCORE] ++
  str_of_int start ++ lit "s-" ++ str_of_int end_ ++ lit "s.mp4".

(** The names over [enumerate(shorts, 1)]. *)
Definition output_names (video_name : str) (shorts : list (Z * Z)) : list str :=
  imap (fun (i : nat) short =>
          output_name video_name (Z.of_nat i + 1) (fst short) (snd short))
       shorts.

End GenerateShorts.

(** ** Vocabulary of the statements *)

Module Props.

(** [a..b] is a maximal run of consecutive integers satisfying [P]. *)
Definition is_max_run (P : Z -> Prop) (a b : Z) : Prop :=
  a <= b /\ (forall i, a <= i <= b -> P i) /\ ~ P (a - 1) /\ ~ P (b + 1).

(** Strictly ascending window indices, as [range] produces them. *)
Definition ascending (l : list Z) : Prop := Sorted Z.lt l.

(** The runs of window indices that the consolidation walks through,
    given the open run [cs..ce] and the detections still to come. *)
Fixpoint runs (cs ce : Z) (rest : list Z) : list (Z * Z) :=
  match rest with
  | [] => [(cs, ce)]
  | idx :: rest' =>
      if idx =? ce + 1 then runs cs idx rest'
      else (cs, ce) :: runs idx idx rest'
  end.

(** A run of window indices in seconds. *)
Definition run_seconds (r : Z * Z) : Z * Z :=
  (fst r * DetectTheodore.SEGMENT_DURATION_SEC,
   (snd r + 1) * DetectTheodore.SEGMENT_DURATION_SEC).

(** Consecutive elements of a list are related by [R]. *)
Definition chained {A} (R : A -> A -> Prop) (l : list A) : Prop :=
  forall (i : nat) (x y : A), l !! i = Some x -> l !! S i = Some y -> R x y.

Definition duration (seg : Z * Z) : Z := snd seg - fst seg.

(** The matches that the batch worker records for the window indices
    [indices], whatever their similarities [sim]. *)
Definition matches_of (sim : Z -> Q) (indices : list Z)
    : list DetectBatch.match_dict :=
  map (fun i => DetectBatch.Match (i * DetectBatch.SEGMENT_DURATION_SEC)
                  ((i + 1) * DetectBatch.SEGMENT_DURATION_SEC) (sim i))
      indices.

(** A [{'start': .., 'end': ..}] dict as a [(start, end)] pair. *)
Definition as_pair (s : DetectBatch.segment_dict) : Z * Z :=
  (DetectBatch.seg_start s, DetectBatch.seg_end s).

(** The batch worker's merge state mirrors the detector's run state. *)
Definition mirrors (st : DetectTheodore.run_state) (st' : DetectBatch.merge_state)
    : Prop :=
  DetectTheodore.current_start st <= DetectTheodore.current_end st /\
  DetectBatch.current_start st' = DetectTheodore.current_start st * 3 /\
  DetectBatch.current_end st' = (DetectTheodore.current_end st + 1) * 3 /\
  map as_pair (DetectBatch.consolidated st')
  = DetectTheodore.consolidated_segments st.

(** The three scores of scenario A. *)
Definition scenario_A : list (Z * Q) :=
  [(0, 97 # 100); (1, 96 # 100); (3, 98 # 100)].

(** Two non-empty runs of indices separated by at least one index. *)
Definition apart (r r' : Z * Z) : Prop :=
  fst r <= snd r /\ snd r + 1 < fst r' /\ fst r' <= snd r'.

(** Two non-empty intervals, the first wholly before the second. *)
Definition before (x y : Z * Z) : Prop :=
  fst x < snd x /\ snd x <= fst y /\ fst y < snd y.

(** A clip cut from the over-length segment that ends at [end_]: a slice
    of the target duration, or the final clip, which holds the rest of the
    segment together with an absorbed remainder of less than the minimum. *)
Definition slice_of (current_start end_ : Z) (clip : Z * Z) : Prop :=
  current_start <= fst clip /\ snd clip <= end_ /\
  (duration clip = GenerateShorts.SHORT_TARGET_DURATION \/
   (snd clip = end_ /\
    GenerateShorts.SHORT_MIN_DURATION <= duration clip
    < GenerateShorts.SHORT_TARGET_DURATION + GenerateShorts.SHORT_MIN_DURATION)).

(** The sweep seen from the list: [prev_end] is the end of the group just
    before [groups]. *)
Fixpoint sweep_from (prev_end : Q) (groups : list GenerateShorts.timed)
    : list GenerateShorts.timed :=
  match groups with
  | [] => []
  | g :: rest =>
      (if flt (GenerateShorts.t_start g) prev_end
       then (prev_end, GenerateShorts.t_end g, GenerateShorts.t_text g)
       else g) :: sweep_from (GenerateShorts.t_end g) rest
  end.

Definition sweep (groups : list GenerateShorts.timed) : list GenerateShorts.timed :=
  match groups with
  | [] => []
  | g :: rest => g :: sweep_from (GenerateShorts.t_end g) rest
  end.

(** Group [g] after the sweep, [prev] being the group before it. *)
Definition swept (prev g : GenerateShorts.timed) : GenerateShorts.timed :=
  if flt (GenerateShorts.t_start g) (GenerateShorts.t_end prev)
  then (GenerateShorts.t_end prev, GenerateShorts.t_end g, GenerateShorts.t_text g)
  else g.

(** Four words of 10 ms and a fifth one, all well formed, in order and
    disjoint. *)
Definition five_quick_words : list GenerateShorts.timed :=
  [(0 # 1, 1 # 100, lit "a"); (1 # 100, 2 # 100, lit "b");
   (2 # 100, 3 # 100, lit "c"); (3 # 100, 4 # 100, lit "d");
   (5 # 100, 6 # 100, lit "e")]%Q.

(** A window of the detector that ends up among the detections: loud
    enough, embedded without error, and similar enough. *)
Definition detected (w : DetectTheodore.window) : bool :=
  negb (flt (DetectTheodore.peak w) (5 # 1000)) &&
  match DetectTheodore.embed w with
  | Returned sim => fge sim DetectTheodore.SIMILARITY_THRESHOLD
  | Raised _ => false
  end.

(** A silent window. *)
Definition silent_window : DetectTheodore.window :=
  DetectTheodore.Window 0 (Returned 0%Q).

(** Nine seconds of audio whose second window makes the oracle raise,
    the two others matching the reference. *)
Definition oracle_error : str := lit "RuntimeError".

Definition faulty_windows (i : Z) : DetectBatch.window :=
  if i =? 1 then DetectBatch.Window false (Raised oracle_error)
  else DetectBatch.Window false (Returned 1%Q).

Definition faulty_task : DetectBatch.task :=
  DetectBatch.Task (lit "a.mp4") true (Returned (9%Q, faulty_windows))
                   (Returned tt).

(** The result that the coordinator appends for a future. *)
Definition result_of (f : DetectBatch.future) : DetectBatch.result_dict :=
  match DetectBatch.future_result f with
  | Returned result => result
  | Raised msg =>
      DetectBatch.Result (DetectBatch.video_name (DetectBatch.f_task f))
        DetectBatch.error_status [] 0 0 (Some msg)
  end.

Definition has_status (s : DetectBatch.status_t) (r : DetectBatch.result_dict)
    : bool :=
  match s, DetectBatch.status r with
  | DetectBatch.error_status, DetectBatch.error_status => true
  | DetectBatch.success_status, DetectBatch.success_status => true
  | _, _ => false
  end.

Definition count_status (s : DetectBatch.status_t)
    (results : list DetectBatch.result_dict) : nat :=
  length (List.filter (has_status s) results).

(** An input whose worker meets no exception at all. *)
Definition runs_clean (f : DetectBatch.future) : Prop :=
  DetectBatch.f_process f = Returned tt /\
  DetectBatch.voice_print_exists (DetectBatch.f_task f) = true /\
  DetectBatch.cleanup (DetectBatch.f_task f) = Returned tt /\
  exists duration windows matches,
    DetectBatch.decoded (DetectBatch.f_task f) = Returned (duration, windows) /\
    DetectBatch.scan windows
      (DetectBatch.range
         (int_of_float (duration / inject_Z DetectBatch.SEGMENT_DURATION_SEC)))
      [] = Returned matches.

(** An input whose worker finds no reference fingerprint. *)
Definition lacks_voice_print (f : DetectBatch.future) : Prop :=
  DetectBatch.f_process f = Returned tt /\
  DetectBatch.voice_print_exists (DetectBatch.f_task f) = false.

(** Three inputs of six seconds; the worker of the second one finds no
    fingerprint. *)
Definition clean_future (name : str) : DetectBatch.future :=
  DetectBatch.Future
    (DetectBatch.Task name true
       (Returned (6%Q, fun _ => DetectBatch.Window false (Returned 1%Q)))
       (Returned tt))
    (Returned tt).

Definition orphan_future (name : str) : DetectBatch.future :=
  DetectBatch.Future
    (DetectBatch.Task name false
       (Returned (6%Q, fun _ => DetectBatch.Window false (Returned 1%Q)))
       (Returned tt))
    (Returned tt).

Definition scenario_E : list DetectBatch.future :=
  [clean_future (lit "a.mp4"); orphan_future (lit "b.mp4");
   clean_future (lit "c.mp4")].

(** A non-empty string of ASCII digits that [int()] reads as [v]. *)
Definition numeral (s : str) (v : Z) : Prop :=
  s <> [] /\ Forall (fun c => isdigit c = true) s /\ nat_of_str s = Some v.

(** A time of day ["H..H:MM:SS"] standing for [v] seconds. *)
Definition is_hms (s : str) (v : Z) : Prop :=
  exists hh mm ss h m sec,
    s = hh ++ [COLON] ++ mm ++ [COLON] ++ ss /\
    numeral hh h /\ numeral mm m /\ numeral ss sec /\
    v = h * 3600 + m * 60 + sec.

(** The string does not start with white space. *)
Definition starts_tight (s : str) : Prop :=
  match s with
  | c :: _ => isspace c = false
  | [] => True
  end.

(** A line of the timestamp file without its line end. *)
Definition line_body (index t1 t2 : str) : str :=
  index ++ [DOT; SPACE] ++ t1 ++ [SPACE; ARROW; SPACE] ++ t2.

(** The seconds of a segment, rounded down. *)
Definition whole_seconds (seg : Q * Q) : Z * Z :=
  (Qfloor (fst seg), Qfloor (snd seg)).

(** The clips cut [start..end_] into consecutive non-empty pieces. *)
Fixpoint tiles (start end_ : Z) (clips : list (Z * Z)) : Prop :=
  match clips with
  | [] => start = end_
  | clip :: rest =>
      fst clip = start /\ fst clip < snd clip /\ tiles (snd clip) end_ rest
  end.


(** A window of the batch worker that is recorded as a match, and the
    similarity found for a window. *)
Definition matching (windows : Z -> DetectBatch.window) (i : Z) : bool :=
  negb (DetectBatch.too_short (windows i)) &&
  match DetectBatch.similarity (windows i) with
  | Returned sim => fge sim DetectBatch.SIMILARITY_THRESHOLD
  | Raised _ => false
  end.

Definition similarity_of (windows : Z -> DetectBatch.window) (i : Z) : Q :=
  match DetectBatch.similarity (windows i) with
  | Returned sim => sim
  | Raised _ => 0%Q
  end.

(** The decoded audio of a task, if any, has a non-negative duration. *)
Definition sound_duration (t : DetectBatch.task) : Prop :=
  forall duration windows,
    DetectBatch.decoded t = Returned (duration, windows) -> (0 <= duration)%Q.

(** The chunks of words that become groups, [current] being the chunk
    under way. *)
Fixpoint chunks (words_per_group : Z) (current words : list GenerateShorts.timed)
    : list (list GenerateShorts.timed) :=
  match words with
  | [] => match current with [] => [] | _ :: _ => [current] end
  | w :: rest =>
      if words_per_group <=? Z.of_nat (length (current ++ [w]))
      then (current ++ [w]) :: chunks words_per_group [] rest
      else chunks words_per_group (current ++ [w]) rest
  end.

(** The replacements of [sanitize_text_for_ffmpeg], before the final
    [strip], and the characters they are about. *)
Definition scrub (text : str) : str :=
  fold_left (fun clean ar => replace (fst ar) [snd ar] clean)
    GenerateShorts.accents
    (replace GenerateShorts.COMMA [SPACE]
       (fold_left (fun clean c => replace c [] clean) GenerateShorts.REMOVED
          text)).

Definition specials : list char :=
  GenerateShorts.REMOVED ++
  GenerateShorts.COMMA :: map fst GenerateShorts.accents.

Definition is_special (c : char) : bool := existsb (N.eqb c) specials.

(** Reading an escaped text: a backslash announces the character that
    follows it. *)
Fixpoint unescape (s : str) : str :=
  match s with
  | [] => []
  | c :: r =>
      if (c =? GenerateShorts.BACKSLASH)%N
      then match r with
           | d :: r' => d :: unescape r'
           | [] => [c]
           end
      else c :: unescape r
  end.

(** No brace of the text stands without a backslash before it. *)
Fixpoint braces_escaped (s : str) : bool :=
  match s with
  | [] => true
  | c :: r =>
      if (c =? GenerateShorts.BACKSLASH)%N
      then match r with
           | _ :: r' => braces_escaped r'
           | [] => false
           end
      else negb ((c =? GenerateShorts.LBRACE)%N || (c =? GenerateShorts.RBRACE)%N)
           && braces_escaped r
  end.

(** The first of two intervals ends no later than the second starts. *)
Definition precedes (x y : Z * Z) : Prop := snd x <= fst y.

End Props.
Import Props.

(** * Proofs *)

(** ** Consolidation of detections (detect_theodore.py, step 7) *)

Section Consolidation.
Import DetectTheodore.

Lemma close_run_nonempty cs ce acc :
  cs <= ce ->
  close_run (RunState cs ce acc) = acc ++ [run_seconds (cs, ce)].
Proof.
  intros Hle. unfold close_run, MIN_CONSECUTIVE_SEGMENTS; simpl.
  destruct (Z.leb_spec 1 (ce - cs + 1)); [reflexivity | lia].
Qed.

Lemma fold_run_step_runs rest : forall cs ce acc,
  cs <= ce ->
  close_run (fold_left run_step rest (RunState cs ce acc))
  = acc ++ map run_seconds (runs cs ce rest).
Proof.
  induction rest as [|idx rest IH]; intros cs ce acc Hle; simpl.
  - now apply close_run_nonempty.
  - unfold run_step at 2; simpl.
    destruct (Z.eqb_spec idx (ce + 1)) as [->|Hne].
    + apply IH. lia.
    + rewrite IH by lia. rewrite close_run_nonempty by assumption.
      now rewrite <- app_assoc.
Qed.

Lemma consolidate_runs d0 rest :
  consolidate (d0 :: rest) = map run_seconds (runs d0 d0 rest).
Proof. unfold consolidate. now rewrite fold_run_step_runs. Qed.

Lemma ascending_inv x l :
  ascending (x :: l) -> (forall i, i ∈ l -> x < i) /\ ascending l.
Proof.
  intros Hs. split.
  - apply Sorted_StronglySorted in Hs; [|intros ? ? ?; lia].
    apply StronglySorted_inv in Hs as [_ Hall].
    intros i Hi. rewrite Forall_forall in Hall. now apply Hall.
  - now apply Sorted_inv in Hs.
Qed.

Lemma ascending_retarget x y l :
  ascending (x :: y :: l) -> ascending (y :: l).
Proof. intros Hs. now apply Sorted_inv in Hs. Qed.

Lemma is_max_run_ext (P Q : Z -> Prop) a b :
  (forall i, P i <-> Q i) -> is_max_run P a b <-> is_max_run Q a b.
Proof.
  intros Hpq. unfold is_max_run.
  rewrite !Hpq.
  split; intros (? & Hall & ? & ?); repeat split; try assumption;
    intros i Hi; apply Hpq; now apply Hall.
Qed.

(** The runs walked through are exactly the maximal runs of the indices
    that are in the open run or still to come. *)
Local Ltac split_run := unfold is_max_run; split; [|split; [|split]].

Lemma runs_spec rest : forall cs ce,
  cs <= ce -> ascending (ce :: rest) ->
  forall a b,
    (a, b) ∈ runs cs ce rest
    <-> is_max_run (fun i => cs <= i <= ce \/ i ∈ rest) a b.
Proof.
  induction rest as [|idx rest IH]; intros cs ce Hle Hasc a b; simpl.
  - rewrite list_elem_of_singleton. split.
    + intros [= -> ->]. split_run.
      * lia.
      * intros i Hi; now left.
      * intros [?|Hin]; [lia | inversion Hin].
      * intros [?|Hin]; [lia | inversion Hin].
    + intros (Hab & Hall & Hlo & Hhi).
      assert (Ha : cs <= a <= ce).
      { destruct (Hall a) as [?|Hin]; [lia | assumption | inversion Hin]. }
      assert (Hb : cs <= b <= ce).
      { destruct (Hall b) as [?|Hin]; [lia | assumption | inversion Hin]. }
      assert (a = cs) as ->.
      { destruct (Z.eq_dec a cs); [assumption|]. exfalso. apply Hlo. left; lia. }
      assert (b = ce) as ->.
      { destruct (Z.eq_dec b ce); [assumption|]. exfalso. apply Hhi. left; lia. }
      reflexivity.
  - pose proof (ascending_inv _ _ Hasc) as [Hgt Hasc'].
    pose proof (ascending_inv _ _ Hasc') as [Hgt' _].
    assert (Hidx : ce < idx) by (apply Hgt; left).
    destruct (Z.eqb_spec idx (ce + 1)) as [->|Hne].
    + rewrite IH by (assumption || lia).
      apply is_max_run_ext. intros i. rewrite elem_of_cons.
      split.
      * intros [?|?]; [|right; right; assumption].
        destruct (Z.eq_dec i (ce + 1)); [right; left; assumption | left; lia].
      * intros [?|[->|?]]; [left; lia | left; lia | right; assumption].
    + rewrite elem_of_cons, IH by (assumption || lia).
      split.
      * intros [[= -> ->]|(Hab & Hall & Hlo & Hhi)].
        -- split_run.
           ++ lia.
           ++ intros i Hi; now left.
           ++ intros [?|Hin]; [lia|]. apply Hgt in Hin. lia.
           ++ intros [?|Hin]; [lia|].
              apply elem_of_cons in Hin as [?|Hin]; [lia|].
              apply Hgt' in Hin. lia.
        -- assert (Ha : idx <= a).
           { destruct (Hall a) as [?|Hin]; [lia | lia | apply Hgt' in Hin; lia]. }
           split_run.
           ++ lia.
           ++ intros i Hi. right. rewrite elem_of_cons.
              destruct (Hall i Hi) as [?|?]; [left; lia | right; assumption].
           ++ intros [?|Hin]; [lia|]. apply Hlo.
              apply elem_of_cons in Hin as [?|Hin]; [left; lia | right; assumption].
           ++ intros [?|Hin]; [lia|]. apply Hhi.
              apply elem_of_cons in Hin as [?|Hin]; [left; lia | right; assumption].
      * intros (Hab & Hall & Hlo & Hhi).
        assert (Hnext : ~ (cs <= ce + 1 <= ce \/ ce + 1 ∈ idx :: rest)).
        { intros [?|Hin]; [lia|].
          apply elem_of_cons in Hin as [?|Hin]; [lia|]. apply Hgt' in Hin. lia. }
        destruct (Hall a) as [Ha|Ha]; [lia| |].
        -- left.
           assert (b <= ce).
           { destruct (Z.le_gt_cases b ce); [assumption|].
             exfalso. apply Hnext. apply Hall. lia. }
           assert (a = cs) as ->.
           { destruct (Z.eq_dec a cs); [assumption|]. exfalso. apply Hlo. left; lia. }
           assert (b = ce) as ->.
           { destruct (Z.eq_dec b ce); [assumption|]. exfalso. apply Hhi. left; lia. }
           reflexivity.
        -- right. apply Hgt in Ha.
           assert (Hin : forall i, i ∈ idx :: rest -> idx <= i <= idx \/ i ∈ rest).
           { intros i Hi. apply elem_of_cons in Hi as [?|?]; [left; lia | now right]. }
           assert (Hout : forall i, idx <= i <= idx \/ i ∈ rest -> i ∈ idx :: rest).
           { intros i [?|?]; apply elem_of_cons; [left; lia | now right]. }
           split_run.
           ++ lia.
           ++ intros i Hi. destruct (Hall i Hi) as [?|?]; [lia | now apply Hin].
           ++ intros Hc. apply Hlo. right. now apply Hout.
           ++ intros Hc. apply Hhi. right. now apply Hout.
Qed.

Lemma runs_head rest : forall cs ce,
  exists b l, runs cs ce rest = (cs, b) :: l.
Proof.
  induction rest as [|idx rest IH]; intros cs ce; simpl; [eauto|].
  destruct (idx =? ce + 1); eauto.
Qed.

Lemma runs_wf rest : forall cs ce,
  cs <= ce -> ascending (ce :: rest) ->
  Forall (fun r => fst r <= snd r) (runs cs ce rest).
Proof.
  induction rest as [|idx rest IH]; intros cs ce Hle Hasc; simpl.
  - now repeat constructor.
  - pose proof (ascending_inv _ _ Hasc) as [Hgt Hasc'].
    assert (ce < idx) by (apply Hgt; left).
    destruct (idx =? ce + 1).
    + apply IH; [lia | assumption].
    + constructor; [assumption|]. apply IH; [lia | assumption].
Qed.

Lemma runs_sorted rest : forall cs ce,
  cs <= ce -> ascending (ce :: rest) -> Sorted apart (runs cs ce rest).
Proof.
  induction rest as [|idx rest IH]; intros cs ce Hle Hasc; simpl.
  - now repeat constructor.
  - pose proof (ascending_inv _ _ Hasc) as [Hgt Hasc'].
    assert (ce < idx) by (apply Hgt; left).
    destruct (Z.eqb_spec idx (ce + 1)) as [->|Hne].
    + apply IH; [lia | assumption].
    + constructor; [apply IH; [lia | assumption]|].
      pose proof (runs_wf rest idx idx (Z.le_refl _) Hasc') as Hwf.
      destruct (runs_head rest idx idx) as (b & l & Heq).
      rewrite Heq in *. apply Forall_cons in Hwf as [Hb _]. simpl in Hb.
      constructor. unfold apart; simpl. lia.
Qed.

#[local] Instance apart_transitive : Transitive apart.
Proof. intros x y z. unfold apart. lia. Qed.

Lemma apart_before r r' : apart r r' -> before (run_seconds r) (run_seconds r').
Proof.
  unfold apart, before, run_seconds, SEGMENT_DURATION_SEC; simpl. lia.
Qed.

(** What [consolidate] returns on strictly ascending detections: each
    segment is non-empty and ends no later than every later one starts. *)
Lemma consolidate_sorted (detections : list Z) :
  ascending detections -> StronglySorted before (consolidate detections).
Proof.
  destruct detections as [|d0 rest]; intros Hasc; [constructor|].
  rewrite consolidate_runs.
  apply (StronglySorted_fmap run_seconds apart before).
  - intros x y. apply apart_before.
  - apply Sorted_StronglySorted; [apply _|].
    apply runs_sorted; [lia | assumption].
Qed.

Lemma StronglySorted_lookup {A} (R : A -> A -> Prop) (l : list A) :
  StronglySorted R l ->
  forall (i j : nat) x y, (i < j)%nat ->
    l !! i = Some x -> l !! j = Some y -> R x y.
Proof.
  induction 1 as [|a l Hs IH Hall]; intros i j x y Hij Hi Hj.
  - inversion Hi.
  - destruct j as [|j]; [lia|]. simpl in Hj.
    destruct i as [|i]; simpl in Hi.
    + injection Hi as <-. rewrite Forall_forall in Hall.
      apply Hall. eapply list_elem_of_lookup_2. eassumption.
    + eapply IH; [|eassumption..]. lia.
Qed.

Lemma StronglySorted_irrefl_NoDup {A} (R : A -> A -> Prop) (l : list A) :
  (forall x, ~ R x x) -> StronglySorted R l -> NoDup l.
Proof.
  intros Hirr. induction 1 as [|a l Hs IH Hall]; constructor; [|assumption].
  intros Hin. rewrite Forall_forall in Hall. eapply Hirr, Hall, Hin.
Qed.

(** The detections left by a series of scores. *)
Lemma detections_fold scores : forall st,
  detections (fold_left record_score scores st)
  = detections st ++
    map fst (List.filter (fun p => fge (snd p) SIMILARITY_THRESHOLD) scores).
Proof.
  induction scores as [|p scores IH]; intros st; simpl.
  - now rewrite app_nil_r.
  - rewrite IH. unfold record_score at 1; simpl.
    destruct (fge (snd p) SIMILARITY_THRESHOLD); simpl;
      [now rewrite <- app_assoc | reflexivity].
Qed.

Lemma detections_of_scores_filter scores :
  detections_of_scores scores
  = map fst (List.filter (fun p => fge (snd p) SIMILARITY_THRESHOLD) scores).
Proof. unfold detections_of_scores. now rewrite detections_fold. Qed.

Lemma detections_of_scores_elem scores i :
  i ∈ detections_of_scores scores
  <-> exists v, (i, v) ∈ scores /\ (SIMILARITY_THRESHOLD <= v)%Q.
Proof.
  rewrite detections_of_scores_filter, list_elem_of_In, in_map_iff.
  split.
  - intros ([j v] & <- & Hin). apply filter_In in Hin as [Hin Hge].
    exists v. split; [now apply list_elem_of_In|].
    now apply Qle_bool_iff.
  - intros (v & Hin & Hge). exists (i, v). split; [reflexivity|].
    apply filter_In. split; [now apply list_elem_of_In|].
    now apply Qle_bool_iff.
Qed.

Lemma ascending_filter {A} (f : Z * A -> bool) (scores : list (Z * A)) :
  ascending (map fst scores) ->
  ascending (map fst (List.filter f scores)).
Proof.
  intros Hs. apply Sorted_StronglySorted in Hs; [|intros ? ? ?; lia].
  apply StronglySorted_Sorted.
  induction scores as [|p scores IH]; simpl in *; [constructor|].
  apply StronglySorted_inv in Hs as [Hs Hall].
  destruct (f p); simpl; [|now apply IH].
  constructor; [now apply IH|].
  rewrite Forall_forall in *. intros i Hi. apply Hall.
  apply list_elem_of_In, in_map_iff in Hi as (q & <- & Hq).
  apply filter_In in Hq as [Hq _].
  apply list_elem_of_In, in_map_iff. eauto.
Qed.

Lemma detections_of_scores_ascending scores :
  ascending (map fst scores) -> ascending (detections_of_scores scores).
Proof. rewrite detections_of_scores_filter. apply ascending_filter. Qed.

(** The segments of [consolidate] are the maximal runs of the detections,
    in seconds. *)
Lemma consolidate_max_runs (detections : list Z) :
  ascending detections ->
  forall s e,
    (s, e) ∈ consolidate detections
    <-> exists a b, is_max_run (fun i => i ∈ detections) a b /\
                    s = a * 3 /\ e = (b + 1) * 3.
Proof.
  intros Hasc s e. destruct detections as [|d0 rest].
  - simpl. split; [intros Hin; inversion Hin|].
    intros (a & b & (Hab & Hall & _) & _).
    specialize (Hall a ltac:(lia)). inversion Hall.
  - rewrite consolidate_runs, list_elem_of_In, in_map_iff.
    assert (Hext : forall a b,
      (a, b) ∈ runs d0 d0 rest <-> is_max_run (fun i => i ∈ d0 :: rest) a b).
    { intros a b. rewrite runs_spec; [|lia|].
      - apply is_max_run_ext. intros i. rewrite elem_of_cons.
        split; (intros [?|?]; [left; lia | now right]).
      - assumption. }
    split.
    + intros ([a b] & [= <- <-] & Hin). exists a, b.
      split; [now apply Hext, list_elem_of_In | now simpl].
    + intros (a & b & Hrun & -> & ->). exists (a, b).
      split; [reflexivity | now apply list_elem_of_In, Hext].
Qed.

(** C1. With a window of 3 s, a threshold of 0.95 and a minimum of one
    window, the consolidation of a series of scores with strictly ascending
    window indices holds exactly the maximal runs [a..b] of qualifying
    indices (score >= threshold), each once, as the segment
    [(a * 3, (b + 1) * 3)]; scenario A gives [(0, 6); (9, 12)]. *)
Theorem consolidate_one_segment_per_maximal_run (scores : list (Z * Q)) :
  ascending (map fst scores) ->
  let qualifying i := exists v, (i, v) ∈ scores /\ (95 # 100 <= v)%Q in
  let out := consolidate (detections_of_scores scores) in
  (SEGMENT_DURATION_SEC = 3 /\ SIMILARITY_THRESHOLD = 95 # 100 /\
   MIN_CONSECUTIVE_SEGMENTS = 1) /\
  (forall s e,
     (s, e) ∈ out
     <-> exists a b, is_max_run qualifying a b /\ s = a * 3 /\ e = (b + 1) * 3) /\
  NoDup out /\
  consolidate (detections_of_scores scenario_A) = [(0, 6); (9, 12)].
Proof.
  intros Hasc qualifying out.
  pose proof (detections_of_scores_ascending scores Hasc) as Hdet.
  split; [now repeat split|]. split; [|split].
  - intros s e. subst out. rewrite consolidate_max_runs by assumption.
    assert (Hq : forall a b,
      is_max_run (fun i => i ∈ detections_of_scores scores) a b
      <-> is_max_run qualifying a b).
    { intros a b. apply is_max_run_ext. intros i.
      apply detections_of_scores_elem. }
    split; intros (a & b & Hrun & Hs & He); exists a, b;
      (split; [now apply Hq | now split]).
  - apply (StronglySorted_irrefl_NoDup before).
    + intros x. unfold before. lia.
    + now apply consolidate_sorted.
  - reflexivity.
Qed.

Lemma consolidate_one_segment_per_maximal_run_witness :
  ascending (map fst scenario_A) /\
  NoDup (consolidate (detections_of_scores scenario_A)).
Proof.
  assert (H : ascending (map fst scenario_A)).
  { unfold scenario_A, ascending; simpl. repeat constructor. }
  split; [exact H|].
  exact (proj1 (proj2 (proj2 (consolidate_one_segment_per_maximal_run _ H)))).
Defined.

(** C5. For scores in strictly ascending window-index order, the segments
    of the consolidation are sorted ascending by start and pairwise
    non-overlapping: every segment starts at or after the end of each
    earlier one, in particular of the previous one. *)
Theorem consolidate_sorted_non_overlapping (scores : list (Z * Q)) :
  ascending (map fst scores) ->
  let out := consolidate (detections_of_scores scores) in
  StronglySorted (fun x y => fst x <= fst y) out /\
  (forall (i j : nat) x y,
     (i < j)%nat -> out !! i = Some x -> out !! j = Some y -> snd x <= fst y) /\
  chained (fun prev next => snd prev <= fst next) out.
Proof.
  intros Hasc out.
  assert (Hs : StronglySorted before out).
  { apply consolidate_sorted. now apply detections_of_scores_ascending. }
  pose proof (StronglySorted_lookup before out Hs) as Hlk.
  split; [|split].
  - clear Hlk. induction Hs as [|x l Hs IH Hall]; constructor; [assumption|].
    eapply Forall_impl; [exact Hall|]. intros y. unfold before; simpl. lia.
  - intros i j x y Hij Hi Hj. destruct (Hlk i j x y Hij Hi Hj) as (_ & H & _).
    exact H.
  - intros i x y Hi Hj.
    destruct (Hlk i (S i) x y ltac:(lia) Hi Hj) as (_ & H & _). exact H.
Qed.

Lemma consolidate_sorted_non_overlapping_witness :
  ascending (map fst scenario_A) /\
  chained (fun prev next => snd prev <= fst next)
          (consolidate (detections_of_scores scenario_A)).
Proof.
  assert (H : ascending (map fst scenario_A)).
  { unfold scenario_A, ascending; simpl. repeat constructor. }
  split; [exact H|].
  exact (proj2 (proj2 (consolidate_sorted_non_overlapping _ H))).
Defined.

End Consolidation.

(** ** The two consolidations agree (detect_theodore.py, detect_batch.py) *)

Section TwoConsolidations.

Lemma mirrors_step st st' idx q :
  mirrors st st' -> DetectTheodore.current_end st < idx ->
  mirrors (DetectTheodore.run_step st idx)
          (DetectBatch.merge_step st' (DetectBatch.Match (idx * 3) ((idx + 1) * 3) q))
  /\ DetectTheodore.current_end (DetectTheodore.run_step st idx) = idx.
Proof.
  destruct st as [cs ce acc], st' as [cs' ce' acc'].
  unfold mirrors; simpl. intros (Hle & -> & -> & Hacc) Hlt.
  unfold DetectTheodore.run_step, DetectBatch.merge_step; simpl.
  destruct (Z.eqb_spec idx (ce + 1)) as [->|Hne].
  - destruct (Z.leb_spec ((ce + 1) * 3) ((ce + 1) * 3)); [|lia].
    simpl. repeat split; (lia || assumption).
  - destruct (Z.leb_spec (idx * 3) ((ce + 1) * 3)); [lia|].
    simpl. repeat split; try lia.
    rewrite close_run_nonempty by assumption.
    rewrite map_app, Hacc. reflexivity.
Qed.

Lemma mirrors_fold sim rest : forall st st',
  mirrors st st' -> ascending (DetectTheodore.current_end st :: rest) ->
  mirrors (fold_left DetectTheodore.run_step rest st)
          (fold_left DetectBatch.merge_step (matches_of sim rest) st').
Proof.
  induction rest as [|idx rest IH]; intros st st' Hm Hasc; simpl; [assumption|].
  pose proof (ascending_inv _ _ Hasc) as [Hgt Hasc'].
  destruct (mirrors_step st st' idx (sim idx) Hm) as [Hm' He].
  { apply Hgt. left. }
  apply IH; [exact Hm'|]. now rewrite He.
Qed.

(** C10. On the same strictly ascending list of matched window indices,
    with a window of 3 s, the detector's consolidation (extend the run when
    the next index is [current_end + 1]) and the batch worker's (merge the
    interval [[i*3, (i+1)*3]] when its start is [<=] the merged end) give
    the same list of (start, end) segments. *)
Theorem consolidations_agree (sim : Z -> Q) (indices : list Z) :
  ascending indices ->
  map as_pair (DetectBatch.consolidate (matches_of sim indices))
  = DetectTheodore.consolidate indices.
Proof.
  intros Hasc. destruct indices as [|d0 rest]; [reflexivity|].
  unfold DetectBatch.consolidate, DetectTheodore.consolidate; simpl.
  pose proof (mirrors_fold sim rest (DetectTheodore.RunState d0 d0 [])
                (DetectBatch.MergeState (d0 * 3) ((d0 + 1) * 3) [])) as Hm.
  destruct Hm as (Hle & Hcs & Hce & Hacc).
  { unfold mirrors; simpl. repeat split; lia. }
  { exact Hasc. }
  set (st := fold_left DetectTheodore.run_step rest _) in *.
  set (st' := fold_left DetectBatch.merge_step _ _) in *.
  destruct st as [cs ce acc]. simpl in *.
  rewrite close_run_nonempty by assumption.
  rewrite map_app, Hacc. simpl. unfold as_pair; simpl.
  rewrite Hcs, Hce. reflexivity.
Qed.

Lemma consolidations_agree_witness :
  ascending [0; 1; 3] /\
  map as_pair (DetectBatch.consolidate (matches_of (fun _ => 1%Q) [0; 1; 3]))
  = DetectTheodore.consolidate [0; 1; 3].
Proof.
  assert (H : ascending [0; 1; 3]) by (unfold ascending; repeat constructor).
  split; [exact H | exact (consolidations_agree _ _ H)].
Defined.

End TwoConsolidations.

(** ** Splitting segments into shorts (generate_shorts.py) *)

Section ClipSplitter.
Import GenerateShorts.

Lemma split_long_unfold cs e shorts :
  split_long cs e shorts =
  if cs <? e then
    let current_end := Z.min (cs + SHORT_TARGET_DURATION) e in
    let remaining := e - current_end in
    let current_end :=
      if (0 <? remaining) && (remaining <? SHORT_MIN_DURATION)
      then e else current_end in
    split_long current_end e
      (if SHORT_MIN_DURATION <=? current_end - cs
       then shorts ++ [(cs, current_end)] else shorts)
  else shorts.
Proof.
  rewrite split_long_equation_1.
  destruct (Z_lt_dec cs e) as [Hlt|Hge]; simpl.
  - destruct (Z.ltb_spec cs e); [reflexivity | lia].
  - destruct (Z.ltb_spec cs e); [lia | reflexivity].
Qed.

(** One turn of the loop, by cases on what is left of the segment. *)
Lemma split_long_done cs e shorts :
  e <= cs -> split_long cs e shorts = shorts.
Proof.
  intros H. rewrite split_long_unfold.
  destruct (Z.ltb_spec cs e); [lia | reflexivity].
Qed.

Lemma split_long_last cs e shorts :
  3 <= e - cs < 33 -> split_long cs e shorts = shorts ++ [(cs, e)].
Proof.
  intros H. rewrite split_long_unfold.
  unfold SHORT_TARGET_DURATION, SHORT_MIN_DURATION.
  destruct (Z.ltb_spec cs e); [|lia]. cbv zeta.
  assert (Hce : (if (0 <? e - Z.min (cs + 30) e) && (e - Z.min (cs + 30) e <? 3)
                 then e else Z.min (cs + 30) e) = e).
  { destruct (_ && _) eqn:Hc; [reflexivity|].
    apply andb_false_iff in Hc as [Hc|Hc];
      [apply Z.ltb_ge in Hc | apply Z.ltb_ge in Hc]; lia. }
  rewrite Hce.
  destruct (Z.leb_spec 3 (e - cs)); [|lia].
  apply split_long_done. lia.
Qed.

Lemma split_long_slice cs e shorts :
  33 <= e - cs ->
  split_long cs e shorts = split_long (cs + 30) e (shorts ++ [(cs, cs + 30)]).
Proof.
  intros H. rewrite split_long_unfold.
  unfold SHORT_TARGET_DURATION, SHORT_MIN_DURATION.
  destruct (Z.ltb_spec cs e); [|lia]. cbv zeta.
  assert (Hce : (if (0 <? e - Z.min (cs + 30) e) && (e - Z.min (cs + 30) e <? 3)
                 then e else Z.min (cs + 30) e) = cs + 30).
  { destruct (_ && _) eqn:Hc; [|lia].
    apply andb_true_iff in Hc as [_ Hc]. apply Z.ltb_lt in Hc. lia. }
  rewrite Hce.
  destruct (Z.leb_spec 3 (cs + 30 - cs)); [reflexivity | lia].
Qed.

Lemma split_long_short cs e shorts :
  0 < e - cs < 3 -> split_long cs e shorts = shorts.
Proof.
  intros H. rewrite split_long_unfold.
  unfold SHORT_TARGET_DURATION, SHORT_MIN_DURATION.
  destruct (Z.ltb_spec cs e); [|lia]. cbv zeta.
  assert (Hce : (if (0 <? e - Z.min (cs + 30) e) && (e - Z.min (cs + 30) e <? 3)
                 then e else Z.min (cs + 30) e) = e).
  { destruct (_ && _); lia. }
  rewrite Hce.
  destruct (Z.leb_spec 3 (e - cs)); [lia|].
  apply split_long_done. lia.
Qed.

(** The loop only appends, and what it appends are slices of the segment. *)
Lemma split_long_spec (n : nat) : forall cs e shorts,
  (Z.to_nat (e - cs) <= n)%nat ->
  split_long cs e shorts = shorts ++ split_long cs e [] /\
  (e <= cs \/ 3 <= e - cs -> Forall (slice_of cs e) (split_long cs e [])).
Proof.
  induction n as [|n IH]; intros cs e shorts Hn.
  - rewrite !split_long_done by lia. rewrite app_nil_r. now split.
  - destruct (Z.le_gt_cases e cs) as [Hdone|Hlt].
    { rewrite !split_long_done by lia. rewrite app_nil_r. now split. }
    destruct (Z.lt_ge_cases (e - cs) 3) as [Hshort|Hmin].
    { rewrite !split_long_short by lia. rewrite app_nil_r.
      split; [reflexivity | intros; constructor]. }
    destruct (Z.lt_ge_cases (e - cs) 33) as [Hlast|Hslice].
    + rewrite !split_long_last by lia. split; [reflexivity|].
      intros _. simpl. constructor; [|constructor].
      unfold slice_of, duration, SHORT_MIN_DURATION, SHORT_TARGET_DURATION; simpl.
      lia.
    + rewrite !(split_long_slice cs e) by lia.
      destruct (IH (cs + 30) e (shorts ++ [(cs, cs + 30)]) ltac:(lia)) as [-> _].
      destruct (IH (cs + 30) e ([] ++ [(cs, cs + 30)]) ltac:(lia)) as [-> Hall].
      rewrite <- app_assoc. split; [reflexivity|]. intros _. simpl.
      constructor.
      * unfold slice_of, duration, SHORT_TARGET_DURATION; simpl. lia.
      * eapply Forall_impl; [apply Hall; lia|].
        intros c. unfold slice_of. lia.
Qed.

Lemma split_long_app cs e shorts :
  split_long cs e shorts = shorts ++ split_long cs e [].
Proof. now apply (split_long_spec (Z.to_nat (e - cs))). Qed.

Lemma split_long_slices cs e :
  3 <= e - cs -> Forall (slice_of cs e) (split_long cs e []).
Proof.
  intros H. apply (split_long_spec (Z.to_nat (e - cs)) cs e []); [lia|now right].
Qed.

Lemma split_segment_app shorts seg :
  split_segment shorts seg = shorts ++ split_segment [] seg.
Proof.
  destruct seg as [start e]. unfold split_segment.
  destruct (_ <=? SHORT_MAX_DURATION).
  - destruct (SHORT_MIN_DURATION <=? _); [reflexivity | now rewrite app_nil_r].
  - apply split_long_app.
Qed.

Lemma split_into_shorts_flat segments : forall shorts,
  fold_left split_segment segments shorts
  = shorts ++ flat_map (split_segment []) segments.
Proof.
  induction segments as [|seg segments IH]; intros shorts; simpl.
  - now rewrite app_nil_r.
  - rewrite IH, (split_segment_app shorts). now rewrite <- app_assoc.
Qed.

Lemma split_into_shorts_app pre post :
  split_into_shorts (pre ++ post)
  = split_into_shorts pre ++ split_into_shorts post.
Proof.
  unfold split_into_shorts. rewrite !split_into_shorts_flat. simpl.
  apply flat_map_app.
Qed.

(** The clips of one segment. *)
Lemma split_segment_clips seg clip :
  clip ∈ split_segment [] seg ->
  (duration seg <= 60 /\ clip = seg /\ 3 <= duration seg) \/
  (60 < duration seg /\ slice_of (fst seg) (snd seg) clip).
Proof.
  destruct seg as [start e]. unfold split_segment, duration; simpl.
  unfold SHORT_MAX_DURATION, SHORT_MIN_DURATION.
  destruct (Z.leb_spec (e - start) 60).
  - destruct (Z.leb_spec 3 (e - start)); intros Hin.
    + apply list_elem_of_singleton in Hin. left. now repeat split.
    + inversion Hin.
  - intros Hin. right. split; [assumption|].
    pose proof (split_long_slices start e ltac:(lia)) as Hall.
    rewrite Forall_forall in Hall. now apply Hall.
Qed.

Lemma split_segment_too_short seg :
  duration seg < 3 -> split_segment [] seg = [].
Proof.
  destruct seg as [start e]. unfold split_segment, duration; simpl.
  unfold SHORT_MAX_DURATION, SHORT_MIN_DURATION. intros H.
  destruct (Z.leb_spec (e - start) 60); [|lia].
  destruct (Z.leb_spec 3 (e - start)); [lia | reflexivity].
Qed.

Lemma split_into_shorts_elem segments clip :
  clip ∈ split_into_shorts segments ->
  exists seg, seg ∈ segments /\ clip ∈ split_segment [] seg.
Proof.
  unfold split_into_shorts. rewrite split_into_shorts_flat; simpl.
  rewrite list_elem_of_In, in_flat_map. intros (seg & Hseg & Hclip).
  exists seg. now rewrite !list_elem_of_In.
Qed.

(** C2. With minDuration = 3, maxDuration = 60 and targetDuration = 30,
    every clip of segments with [end > start] lasts at least 3 s and at most
    60 s.  A clip is either a whole segment of at most 60 s, or cut from a
    longer segment: a 30 s slice, or the final clip, which may hold an
    absorbed remainder and then exceeds 30 s but stays below 33 s (so below
    60 + 3).  A segment shorter than 3 s gives no clip at all. *)
Theorem split_into_shorts_duration_bounds (segments : list (Z * Z)) :
  (forall seg, seg ∈ segments -> fst seg < snd seg) ->
  (SHORT_MIN_DURATION = 3 /\ SHORT_MAX_DURATION = 60 /\
   SHORT_TARGET_DURATION = 30) /\
  (forall clip, clip ∈ split_into_shorts segments ->
     3 <= duration clip /\ duration clip <= 60 /\
     exists seg, seg ∈ segments /\
       ((clip = seg /\ duration seg <= 60) \/
        (60 < duration seg /\ fst seg <= fst clip /\ snd clip <= snd seg /\
         (duration clip = 30 \/
          (snd clip = snd seg /\ 3 <= duration clip < 30 + 3))))) /\
  (forall pre seg post,
     segments = pre ++ seg :: post -> duration seg < 3 ->
     split_into_shorts segments = split_into_shorts (pre ++ post)).
Proof.
  intros _. split; [now repeat split|]. split.
  - intros clip Hclip.
    apply split_into_shorts_elem in Hclip as (seg & Hseg & Hclip).
    apply split_segment_clips in Hclip
      as [(Hmax & -> & Hmin)|(Hlong & Hlo & Hhi & Hdur)].
    + repeat split; try lia. exists seg. split; [assumption|]. left. now split.
    + unfold SHORT_TARGET_DURATION, SHORT_MIN_DURATION in Hdur.
      repeat split; try lia. exists seg. split; [assumption|]. right.
      repeat split; try lia.
  - intros pre seg post -> Hshort.
    rewrite !split_into_shorts_app.
    change (seg :: post) with ([seg] ++ post).
    rewrite split_into_shorts_app. f_equal.
    unfold split_into_shorts at 1; simpl.
    rewrite split_segment_app, split_segment_too_short by assumption.
    reflexivity.
Qed.

Lemma split_into_shorts_duration_bounds_witness :
  (forall seg, seg ∈ [(0, 75); (100, 162); (200, 202)] -> fst seg < snd seg) /\
  split_into_shorts [(0, 75); (100, 162); (200, 202)]
  = split_into_shorts ([(0, 75); (100, 162)] ++ []).
Proof.
  assert (H : forall seg, seg ∈ [(0, 75); (100, 162); (200, 202)] ->
                          fst seg < snd seg).
  { intros seg Hin. repeat (apply elem_of_cons in Hin as [->|Hin]; [simpl; lia|]).
    inversion Hin. }
  split; [exact H|].
  apply (proj2 (proj2 (split_into_shorts_duration_bounds _ H))
           [(0, 75); (100, 162)] (200, 202) []); [reflexivity|].
  unfold duration; simpl; lia.
Defined.

(** Scenario B and an absorbed remainder. *)
Example split_into_shorts_scenario_B :
  split_into_shorts [(0, 75)] = [(0, 30); (30, 60); (60, 75)] /\
  split_into_shorts [(0, 62)] = [(0, 30); (30, 62)].
Proof. split; reflexivity. Qed.

(** C9, as the code has it.  A segment with [end < start] is not rejected:
    the call returns normally, and the segment gives no clip, the clips of
    the other segments being what they are without it. *)
Theorem split_into_shorts_negative_duration_omitted
    (pre post : list (Z * Z)) (seg : Z * Z) :
  snd seg < fst seg ->
  split_into_shorts_call (pre ++ seg :: post)
  = Returned (split_into_shorts pre ++ split_into_shorts post).
Proof.
  intros Hneg. unfold split_into_shorts_call. f_equal.
  change (seg :: post) with ([seg] ++ post).
  rewrite !split_into_shorts_app. f_equal.
  unfold split_into_shorts at 1; simpl.
  rewrite split_segment_app, split_segment_too_short; [reflexivity|].
  unfold duration. lia.
Qed.

Lemma split_into_shorts_negative_duration_omitted_witness :
  snd (10, 5) < fst (10, 5) /\
  split_into_shorts_call ([(0, 10)] ++ (10, 5) :: [(20, 30)])
  = Returned (split_into_shorts [(0, 10)] ++ split_into_shorts [(20, 30)]).
Proof.
  assert (H : snd (10, 5) < fst (10, 5)) by (simpl; lia).
  split; [exact H|].
  exact (split_into_shorts_negative_duration_omitted [(0, 10)] [(20, 30)] (10, 5) H).
Defined.

(** C9 fails as stated: the segment [(10, 5)] has a negative duration, yet
    the call raises nothing and returns the empty list. *)
Lemma split_into_shorts_negative_duration_not_rejected :
  snd (10, 5) < fst (10, 5) /\
  split_into_shorts_call [(10, 5)] = Returned [] /\
  ~ (exists msg, split_into_shorts_call [(10, 5)] = Raised msg).
Proof.
  split; [simpl; lia|]. split; [reflexivity|].
  intros [msg Hmsg]. discriminate Hmsg.
Qed.

End ClipSplitter.

(** ** Grouping words for display (generate_shorts.py) *)

Section SubtitleGrouper.
Import GenerateShorts.

(** A step of the sweep writes index [i] only. *)
Lemma sweep_step_other (groups : list timed) (i j : nat) :
  j <> i -> sweep_step groups i !! j = groups !! j.
Proof.
  intros Hne. unfold sweep_step.
  destruct (groups !! i) as [g|]; [|reflexivity].
  destruct (groups !! (i - 1)%nat) as [prev|]; [|reflexivity].
  destruct (flt _ _); [|reflexivity].
  now apply list_lookup_insert_ne.
Qed.

Lemma sweep_step_length (groups : list timed) (i : nat) :
  length (sweep_step groups i) = length groups.
Proof.
  unfold sweep_step.
  destruct (groups !! i) as [g|]; [|reflexivity].
  destruct (groups !! (i - 1)%nat) as [prev|]; [|reflexivity].
  destruct (flt _ _); [|reflexivity].
  apply length_insert.
Qed.

(** Sweeping the indices after [prev], which sits at index [length done]. *)
Lemma sweep_fold (later : list timed) : forall (done : list timed) (prev : timed),
  fold_left sweep_step (seq (S (length done)) (length later))
            (done ++ prev :: later)
  = done ++ prev :: sweep_from (t_end prev) later.
Proof.
  induction later as [|g later IH]; intros done prev; simpl; [reflexivity|].
  assert (Hg : (done ++ prev :: g :: later) !! S (length done) = Some g).
  { rewrite lookup_app_r by lia.
    replace (S (length done) - length done)%nat with 1%nat by lia.
    reflexivity. }
  assert (Hp : (done ++ prev :: g :: later) !! (S (length done) - 1)%nat
               = Some prev).
  { rewrite lookup_app_r by lia.
    replace (S (length done) - 1 - length done)%nat with 0%nat by lia.
    reflexivity. }
  unfold sweep_step at 2. rewrite Hg, Hp.
  assert (Hins : forall g', <[S (length done) := g']> (done ++ prev :: g :: later)
                            = (done ++ [prev]) ++ g' :: later).
  { intros g'. rewrite insert_app_r_alt by lia.
    replace (S (length done) - length done)%nat with 1%nat by lia.
    simpl. now rewrite <- app_assoc. }
  specialize (IH (done ++ [prev])).
  rewrite length_app in IH; simpl in IH.
  replace (length done + 1)%nat with (S (length done)) in IH by lia.
  destruct (flt (t_start g) (t_end prev)).
  - rewrite Hins, IH, <- app_assoc. reflexivity.
  - replace (done ++ prev :: g :: later) with ((done ++ [prev]) ++ g :: later)
      by now rewrite <- app_assoc.
    rewrite IH, <- app_assoc. reflexivity.
Qed.

Lemma resolve_overlaps_sweep (groups : list timed) :
  resolve_overlaps groups = sweep groups.
Proof.
  unfold resolve_overlaps. destruct groups as [|g rest]; [reflexivity|].
  simpl. rewrite Nat.sub_0_r. apply (sweep_fold rest [] g).
Qed.

Lemma sweep_from_length (groups : list timed) : forall prev_end,
  length (sweep_from prev_end groups) = length groups.
Proof.
  induction groups as [|g rest IH]; intros pe; simpl; [reflexivity|].
  now rewrite IH.
Qed.

Lemma sweep_length (groups : list timed) :
  length (sweep groups) = length groups.
Proof.
  destruct groups as [|g rest]; simpl; [reflexivity|].
  now rewrite sweep_from_length.
Qed.

(** Group [k] of [rest] after the sweep, from itself and its predecessor. *)
Lemma sweep_from_lookup (rest : list timed) : forall (p : timed) (k : nat) g prev,
  rest !! k = Some g -> (p :: rest) !! k = Some prev ->
  sweep_from (t_end p) rest !! k = Some (swept prev g).
Proof.
  induction rest as [|g0 rest IH]; intros p k g prev Hg Hprev; [inversion Hg|].
  destruct k as [|k]; simpl in *.
  - injection Hg as <-. injection Hprev as <-. reflexivity.
  - now apply IH.
Qed.

Lemma sweep_lookup_0 (groups : list timed) : sweep groups !! 0%nat = groups !! 0%nat.
Proof. now destruct groups. Qed.

Lemma sweep_lookup_S (groups : list timed) (k : nat) g prev :
  groups !! S k = Some g -> groups !! k = Some prev ->
  sweep groups !! S k = Some (swept prev g).
Proof.
  destruct groups as [|p rest]; [intros H; inversion H|]. simpl.
  apply sweep_from_lookup.
Qed.

Lemma sweep_lookup_end (groups : list timed) (i : nat) g :
  groups !! i = Some g ->
  exists g', sweep groups !! i = Some g' /\
             t_end g' = t_end g /\ t_text g' = t_text g.
Proof.
  intros Hg. destruct i as [|k].
  - rewrite sweep_lookup_0. eauto.
  - destruct (groups !! k) as [prev|] eqn:Hprev.
    + rewrite (sweep_lookup_S _ _ _ _ Hg Hprev). unfold swept.
      destruct (flt _ _); eauto.
    + apply lookup_ge_None in Hprev. apply lookup_lt_Some in Hg. lia.
Qed.

Lemma flt_true x y : flt x y = true <-> (x < y)%Q.
Proof.
  unfold flt. rewrite negb_true_iff, <- not_true_iff_false, Qle_bool_iff.
  split; [apply Qnot_le_lt | apply Qlt_not_le].
Qed.

Lemma flt_false x y : flt x y = false <-> (y <= x)%Q.
Proof. unfold flt. now rewrite negb_false_iff, Qle_bool_iff. Qed.

Lemma Sorted_chained {A} (R : A -> A -> Prop) (l : list A) :
  Sorted R l -> chained R l.
Proof.
  induction 1 as [|a l Hs IH Hhd]; intros i x y Hx Hy; [inversion Hx|].
  destruct i as [|i]; simpl in *.
  - injection Hx as <-. destruct l as [|b l]; [inversion Hy|].
    injection Hy as <-. now apply HdRel_inv in Hhd.
  - eapply IH; eassumption.
Qed.

(** After the sweep no group starts before the end of the previous one. *)
Lemma sweep_from_sorted (groups : list timed) : forall (p : timed),
  Sorted (fun prev next => (t_end prev <= t_start next)%Q)
         (p :: sweep_from (t_end p) groups).
Proof.
  induction groups as [|g rest IH]; intros p; simpl.
  - repeat constructor.
  - destruct (flt (t_start g) (t_end p)) eqn:Hlt.
    + constructor; [apply (IH (t_end p, t_end g, t_text g))|].
      constructor. simpl. apply Qle_refl.
    + constructor; [apply IH|]. constructor. now apply flt_false.
Qed.

Lemma sweep_sorted (groups : list timed) :
  Sorted (fun prev next => (t_end prev <= t_start next)%Q) (sweep groups).
Proof.
  destruct groups as [|p rest]; [constructor | apply sweep_from_sorted].
Qed.

Lemma group_words_for_display_sweep word_timestamps words_per_group :
  group_words_for_display word_timestamps words_per_group
  = sweep (build_groups word_timestamps words_per_group).
Proof.
  unfold group_words_for_display.
  destruct word_timestamps; [reflexivity | apply resolve_overlaps_sweep].
Qed.

(** C3. Whatever the words, the groups returned satisfy
    [group[i].start >= group[i-1].end]; a step of the sweep writes
    [groups[i]] only (so never [groups[i-1]]), and over the whole sweep a
    group keeps its end and text, and its start either stays or is raised
    to the end of the group before it. *)
Theorem group_words_for_display_no_overlap
    (word_timestamps : list timed) (words_per_group : Z) :
  let before_sweep := build_groups word_timestamps words_per_group in
  let out := group_words_for_display word_timestamps words_per_group in
  chained (fun prev next => (t_start next >= t_end prev)%Q) out /\
  (forall (groups : list timed) (i j : nat),
     j <> i -> sweep_step groups i !! j = groups !! j) /\
  length out = length before_sweep /\
  (forall (i : nat) g, before_sweep !! i = Some g ->
     exists g', out !! i = Some g' /\
       t_end g' = t_end g /\ t_text g' = t_text g /\
       (g' = g \/
        exists (k : nat) prev,
          i = S k /\ before_sweep !! k = Some prev /\
          (t_start g < t_end prev)%Q /\ t_start g' = t_end prev)).
Proof.
  intros before_sweep out. subst out before_sweep.
  rewrite group_words_for_display_sweep.
  generalize (build_groups word_timestamps words_per_group).
  intros before_sweep.
  split; [|split; [|split]].
  - exact (Sorted_chained _ _ (sweep_sorted before_sweep)).
  - apply sweep_step_other.
  - apply sweep_length.
  - intros i g Hg. destruct i as [|k].
    + rewrite sweep_lookup_0. exists g. repeat split; [assumption | now left].
    + destruct (before_sweep !! k) as [prev|] eqn:Hprev.
      * rewrite (sweep_lookup_S _ _ _ _ Hg Hprev). unfold swept.
        destruct (flt (t_start g) (t_end prev)) eqn:Hlt.
        -- eexists. split; [reflexivity|]. repeat split.
           right. exists k, prev. repeat split; try assumption.
           now apply flt_true.
        -- exists g. repeat split. now left.
      * apply lookup_ge_None in Hprev. apply lookup_lt_Some in Hg. lia.
Qed.

(** Step 3 leaves every group with a positive duration. *)
Lemma make_group_positive (ws : list timed) :
  ws <> [] -> (t_start (make_group ws) < t_end (make_group ws))%Q.
Proof.
  intros Hne. unfold make_group, t_start at 1, t_end at 1; simpl.
  set (gs := t_start (hd no_word ws)).
  set (ge := t_end (List.last ws no_word)).
  set (fl := (MIN_WORD_DURATION * inject_Z (Z.of_nat (length ws)))%Q).
  assert (Hfl : (0 < fl)%Q).
  { subst fl. apply Qmult_lt_0_compat; [reflexivity|].
    destruct ws as [|w ws]; [congruence|].
    unfold Qlt; simpl. lia. }
  clearbody gs ge fl.
  destruct (flt (ge - gs) fl) eqn:Hlt; unfold t_end; simpl.
  - lra.
  - apply flt_false in Hlt. lra.
Qed.

Lemma group_step_positive words_per_group st w :
  Forall (fun g => (t_start g < t_end g)%Q) (groups st) ->
  Forall (fun g => (t_start g < t_end g)%Q)
         (groups (group_step words_per_group st w)).
Proof.
  intros Hall. unfold group_step.
  destruct (_ <=? _); simpl; [|assumption].
  apply Forall_app. split; [assumption|].
  constructor; [|constructor].
  apply make_group_positive. now destruct (current_group st).
Qed.

Lemma build_groups_positive word_timestamps words_per_group :
  Forall (fun g => (t_start g < t_end g)%Q)
         (build_groups word_timestamps words_per_group).
Proof.
  unfold build_groups.
  assert (Hfold : forall ws st,
    Forall (fun g => (t_start g < t_end g)%Q) (groups st) ->
    Forall (fun g => (t_start g < t_end g)%Q)
           (groups (fold_left (group_step words_per_group) ws st))).
  { induction ws as [|w ws IH]; intros st Hst; simpl; [assumption|].
    apply IH. now apply group_step_positive. }
  specialize (Hfold word_timestamps (GroupState [] []) ltac:(constructor)).
  destruct (current_group _) as [|w ws] eqn:Hcur; [assumption|].
  apply Forall_app. split; [assumption|].
  constructor; [|constructor]. now apply make_group_positive.
Qed.

(** What the sweep leaves of the durations that step 3 ensured.  It keeps
    the number of groups and the end of each, which step 3 left greater
    than the start, and it only ever moves a start.  So the first group
    returned has [end > start], and a later one has [end > start] exactly
    when its end is greater than the end of the group before it: the
    minimum duration of a group survives the sweep in that case only. *)
Lemma group_words_for_display_durations
    (word_timestamps : list timed) (words_per_group : Z) :
  let before_sweep := build_groups word_timestamps words_per_group in
  let out := group_words_for_display word_timestamps words_per_group in
  length out = length before_sweep /\
  (forall (i : nat) g, before_sweep !! i = Some g ->
     (t_start g < t_end g)%Q /\
     exists g', out !! i = Some g' /\ t_end g' = t_end g) /\
  (forall g, out !! 0%nat = Some g -> (t_start g < t_end g)%Q) /\
  (forall (i : nat) prev g, out !! i = Some prev -> out !! S i = Some g ->
     (t_start g < t_end g)%Q <-> (t_end prev < t_end g)%Q).
Proof.
  intros before_sweep out. subst out before_sweep.
  rewrite group_words_for_display_sweep.
  pose proof (build_groups_positive word_timestamps words_per_group) as Hpos.
  revert Hpos. generalize (build_groups word_timestamps words_per_group).
  intros before_sweep Hpos. rewrite Forall_forall in Hpos.
  split; [|split; [|split]].
  - apply sweep_length.
  - intros i g Hg. split.
    + apply Hpos. eapply list_elem_of_lookup_2. eassumption.
    + destruct (sweep_lookup_end _ _ _ Hg) as (g' & Hg' & He & _). eauto.
  - intros g. rewrite sweep_lookup_0. intros Hg.
    apply Hpos. eapply list_elem_of_lookup_2. eassumption.
  - intros i prev g Hprev Hg.
    assert (Hlen : (S i < length before_sweep)%nat).
    { apply lookup_lt_Some in Hg. now rewrite sweep_length in Hg. }
    destruct (lookup_lt_is_Some_2 before_sweep (S i) Hlen) as [g0 Hg0].
    destruct (lookup_lt_is_Some_2 before_sweep i ltac:(lia)) as [p0 Hp0].
    destruct (sweep_lookup_end _ _ _ Hp0) as (p' & Hp' & Hpe & _).
    rewrite Hprev in Hp'. injection Hp' as <-.
    rewrite (sweep_lookup_S _ _ _ _ Hg0 Hp0) in Hg. injection Hg as <-.
    assert (Hg0pos : (t_start g0 < t_end g0)%Q).
    { apply Hpos. eapply list_elem_of_lookup_2. eassumption. }
    rewrite Hpe. unfold swept.
    destruct (flt (t_start g0) (t_end p0)) eqn:Hlt.
    + unfold t_start at 1, t_end at 2, t_end at 3; simpl. reflexivity.
    + apply flt_false in Hlt. split; intros _; [lra | assumption].
Qed.

(** C8 does not hold of the code, which misses what its own comments
    announce (a minimum duration for every group, groups made to be
    displayed one after the other).  Of five well-formed words in groups
    of four, the first group is extended to 0.6 s, and the sweep moves the
    start of the second group to 0.6 s while its end stays at 0.2 s: the
    group is returned with its end before its start, and not with
    [end = start + epsilon]. *)
Lemma group_words_for_display_end_before_start :
  exists g,
    group_words_for_display five_quick_words 4 !! 1%nat = Some g /\
    (t_end g < t_start g)%Q /\ ~ (t_start g < t_end g)%Q.
Proof.
  eexists. split; [reflexivity|]. split.
  - reflexivity.
  - intros H. vm_compute in H. discriminate H.
Qed.

End SubtitleGrouper.

(** ** Scanning the windows (detect_theodore.py, detect_batch.py) *)

Section WindowScorer.

Lemma scan_step_detections (iw : Z * DetectTheodore.window) st :
  DetectTheodore.detections (DetectTheodore.scan_step st iw)
  = DetectTheodore.detections st ++ (if detected (snd iw) then [fst iw] else []).
Proof.
  destruct iw as [i w]. unfold DetectTheodore.scan_step, detected; simpl.
  destruct (flt _ _); simpl; [now rewrite app_nil_r|].
  destruct (DetectTheodore.embed w) as [sim|msg]; simpl;
    [|now rewrite app_nil_r].
  destruct (fge sim _); [reflexivity | now rewrite app_nil_r].
Qed.

Lemma scan_fold_detections (l : list (Z * DetectTheodore.window)) : forall st,
  DetectTheodore.detections (fold_left DetectTheodore.scan_step l st)
  = DetectTheodore.detections st ++
    map fst (List.filter (fun iw => detected (snd iw)) l).
Proof.
  induction l as [|iw l IH]; intros st; simpl.
  - now rewrite app_nil_r.
  - rewrite IH, scan_step_detections.
    destruct (detected (snd iw)); simpl;
      [now rewrite <- app_assoc | now rewrite app_nil_r].
Qed.

Lemma scan_detections (ws : list DetectTheodore.window) :
  DetectTheodore.detections (DetectTheodore.scan ws)
  = map fst (List.filter (fun iw => detected (snd iw)) (DetectTheodore.indexed ws)).
Proof. unfold DetectTheodore.scan. now rewrite scan_fold_detections. Qed.

(** [range] hands out strictly ascending indices, so the detections are
    strictly ascending and the segments of the whole detection are sorted
    and disjoint. *)
Lemma indexed_ascending {A} (l : list A) : forall k : nat,
  ascending (map fst (imap (fun (i : nat) (a : A) => (Z.of_nat (k + i), a)) l)).
Proof.
  induction l as [|a l IH]; intros k; [constructor|].
  rewrite imap_cons. simpl.
  rewrite (imap_ext _ (fun (i : nat) (a : A) => (Z.of_nat (S k + i), a)))
    by (intros i x _; simpl; do 2 f_equal; lia).
  constructor; [apply IH|].
  destruct l as [|b l]; simpl; constructor. simpl. lia.
Qed.

Lemma scan_detections_ascending (ws : list DetectTheodore.window) :
  ascending (DetectTheodore.detections (DetectTheodore.scan ws)).
Proof.
  rewrite scan_detections. apply ascending_filter.
  apply (indexed_ascending ws 0).
Qed.

Lemma detect_theodore_segments_sorted (ws : list DetectTheodore.window) :
  StronglySorted before (DetectTheodore.detect_theodore_segments ws).
Proof. apply consolidate_sorted, scan_detections_ascending. Qed.

(** The detections are the indices of the detected windows: every window
    is looked at, whatever happened at the others. *)
Lemma scan_detections_elem (ws : list DetectTheodore.window) (i : nat) :
  Z.of_nat i ∈ DetectTheodore.detections (DetectTheodore.scan ws)
  <-> exists w, ws !! i = Some w /\ detected w = true.
Proof.
  rewrite scan_detections, list_elem_of_In, in_map_iff. split.
  - intros ([j w] & Hj & Hin). simpl in Hj. subst j.
    apply filter_In in Hin as [Hin Hdet]. simpl in Hdet.
    apply list_elem_of_In in Hin. unfold DetectTheodore.indexed in Hin.
    apply elem_of_lookup_imap in Hin as (k & w' & Heq & Hk).
    injection Heq as Hik ->. apply Nat2Z.inj in Hik. subst k. eauto.
  - intros (w & Hw & Hdet). exists (Z.of_nat i, w). split; [reflexivity|].
    apply filter_In. split; [|assumption].
    apply list_elem_of_In. unfold DetectTheodore.indexed.
    apply (elem_of_lookup_imap_2 (fun (i : nat) a => (Z.of_nat i, a))).
    assumption.
Qed.

(** A window at which the oracle raises counts like a silent one. *)
Lemma scan_raised_as_silent pre w post :
  is_raised (DetectTheodore.embed w) = true ->
  DetectTheodore.scan (pre ++ w :: post)
  = DetectTheodore.scan (pre ++ silent_window :: post).
Proof.
  intros Hr. unfold DetectTheodore.scan, DetectTheodore.indexed.
  rewrite !imap_app, !imap_cons, !fold_left_app. simpl.
  f_equal. unfold DetectTheodore.scan_step at 2 4; simpl.
  destruct (DetectTheodore.embed w); [discriminate|].
  destruct (flt (DetectTheodore.peak w) _); reflexivity.
Qed.

(** The loop of the batch worker stops at the first window whose oracle
    call raises. *)
Lemma batch_scan_raises windows pre i post msg : forall matches,
  Forall (fun j => DetectBatch.too_short (windows j) = true \/
                   is_raised (DetectBatch.similarity (windows j)) = false) pre ->
  DetectBatch.too_short (windows i) = false ->
  DetectBatch.similarity (windows i) = Raised msg ->
  DetectBatch.scan windows (pre ++ i :: post) matches = Raised msg.
Proof.
  induction pre as [|j pre IH]; intros matches Hpre Hshort Hsim; simpl.
  - now rewrite Hshort, Hsim.
  - apply Forall_cons in Hpre as [Hj Hpre].
    destruct (DetectBatch.too_short (windows j)); [now apply IH|].
    destruct Hj as [Hj|Hj]; [discriminate|].
    destruct (DetectBatch.similarity (windows j)); [now apply IH | discriminate].
Qed.

(** C6, as the code has it.  In the detector, every window is scanned
    whatever happens at the others, and a window at which the oracle raises
    is skipped exactly as a silent one.  In the batch worker the scan has no
    handler of its own: the first window at which the oracle raises ends the
    scan, and the worker returns an error result with the exception text and
    no segment. *)
Theorem window_failure_policy :
  (forall (ws : list DetectTheodore.window) (i : nat),
     Z.of_nat i ∈ DetectTheodore.detections (DetectTheodore.scan ws)
     <-> exists w, ws !! i = Some w /\ detected w = true) /\
  (forall pre w post,
     is_raised (DetectTheodore.embed w) = true ->
     DetectTheodore.scan (pre ++ w :: post)
     = DetectTheodore.scan (pre ++ silent_window :: post)) /\
  (forall (t : DetectBatch.task) duration windows pre i post msg,
     DetectBatch.voice_print_exists t = true ->
     DetectBatch.decoded t = Returned (duration, windows) ->
     DetectBatch.range
       (int_of_float (duration / inject_Z DetectBatch.SEGMENT_DURATION_SEC))
     = pre ++ i :: post ->
     Forall (fun j => DetectBatch.too_short (windows j) = true \/
                      is_raised (DetectBatch.similarity (windows j)) = false)
            pre ->
     DetectBatch.too_short (windows i) = false ->
     DetectBatch.similarity (windows i) = Raised msg ->
     DetectBatch.scan windows (pre ++ i :: post) [] = Raised msg /\
     DetectBatch.analyze_single_video t
     = DetectBatch.Result (DetectBatch.video_name t) DetectBatch.error_status
                          [] duration 0 (Some msg)).
Proof.
  split; [exact scan_detections_elem|]. split; [exact scan_raised_as_silent|].
  intros t duration windows pre i post msg Hvp Hdec Hrange Hpre Hshort Hsim.
  pose proof (batch_scan_raises windows pre i post msg [] Hpre Hshort Hsim)
    as Hscan.
  split; [exact Hscan|].
  unfold DetectBatch.analyze_single_video.
  rewrite Hvp, Hdec; simpl. rewrite Hrange, Hscan. reflexivity.
Qed.

(** C6 fails as stated, for the batch worker: with an oracle that raises at
    the second of three matching windows, the exception leaves the scan and
    the analysis of the input is given up. *)
Lemma batch_scan_aborts_on_oracle_failure :
  DetectBatch.scan faulty_windows (DetectBatch.range 3) [] = Raised oracle_error /\
  DetectBatch.analyze_single_video faulty_task
  = DetectBatch.Result (lit "a.mp4") DetectBatch.error_status [] 9 0
                       (Some oracle_error).
Proof. split; reflexivity. Qed.

End WindowScorer.

(** ** The batch coordinator (detect_batch.py) *)

Section BatchCoordinator.
Import DetectBatch.

Lemma collect_result_of results f : collect results f = results ++ [result_of f].
Proof. unfold collect, result_of. now destruct (future_result f). Qed.

Lemma collect_fold order : forall results,
  fold_left collect order results = results ++ map result_of order.
Proof.
  induction order as [|f order IH]; intros results; simpl.
  - now rewrite app_nil_r.
  - rewrite IH, collect_result_of, <- app_assoc. reflexivity.
Qed.

Lemma batch_results_permutation submitted results :
  batch_results submitted results ->
  Permutation results (map result_of submitted).
Proof.
  intros (order & Hperm & ->). rewrite collect_fold. simpl.
  now apply Permutation_map.
Qed.

Lemma count_status_permutation s (l l' : list result_dict) :
  Permutation l l' -> count_status s l = count_status s l'.
Proof.
  unfold count_status.
  induction 1 as [|x l l' Hp IH|x y l|l l' l'' Hp1 IH1 Hp2 IH2]; simpl.
  - reflexivity.
  - destruct (has_status s x); simpl; now rewrite IH.
  - destruct (has_status s x), (has_status s y); reflexivity.
  - now rewrite IH1.
Qed.

Lemma runs_clean_result f :
  runs_clean f ->
  result_of f = analyze_single_video (f_task f) /\
  status (result_of f) = success_status.
Proof.
  intros (Hproc & Hvp & Hclean & d & w & m & Hdec & Hscan).
  unfold result_of, future_result. rewrite Hproc.
  split; [reflexivity|].
  unfold analyze_single_video. rewrite Hvp, Hdec; simpl.
  rewrite Hscan, Hclean. reflexivity.
Qed.

Lemma lacks_voice_print_result f :
  lacks_voice_print f ->
  result_of f
  = Result (video_name (f_task f)) error_status [] 0 0 (Some MSG_NO_VOICE_PRINT).
Proof.
  intros (Hproc & Hvp). unfold result_of, future_result. rewrite Hproc.
  unfold analyze_single_video. now rewrite Hvp.
Qed.

(** C7. The coordinator returns one result per submitted input, in the
    order of completion: the results are a permutation of what each input
    gives on its own.  Of three inputs of which exactly one finds no
    reference fingerprint, the others meeting no exception, the three
    results hold exactly one error, which carries the reason, and two
    successes, each being what the analysis of its own input returns. *)
Theorem batch_one_result_per_input
    (submitted : list future) (results : list result_dict) :
  batch_results submitted results ->
  length results = length submitted /\
  Permutation results (map result_of submitted) /\
  (forall f1 f2 f3,
     Permutation submitted [f1; f2; f3] ->
     runs_clean f1 -> lacks_voice_print f2 -> runs_clean f3 ->
     length results = 3%nat /\
     count_status error_status results = 1%nat /\
     count_status success_status results = 2%nat /\
     (forall r, r ∈ results -> status r = error_status ->
        error r = Some MSG_NO_VOICE_PRINT) /\
     (forall f, f ∈ [f1; f3] ->
        analyze_single_video (f_task f) ∈ results /\
        status (analyze_single_video (f_task f)) = success_status)).
Proof.
  intros Hbatch.
  pose proof (batch_results_permutation _ _ Hbatch) as Hperm.
  assert (Hlen : length results = length submitted).
  { rewrite (Permutation_length Hperm). apply length_map. }
  split; [exact Hlen|]. split; [exact Hperm|].
  intros f1 f2 f3 Hsub Hc1 Hv2 Hc3.
  assert (Hres : Permutation results [result_of f1; result_of f2; result_of f3]).
  { etransitivity; [exact Hperm|].
    apply (Permutation_map result_of) in Hsub. exact Hsub. }
  destruct (runs_clean_result f1 Hc1) as [Hr1 Hs1].
  destruct (runs_clean_result f3 Hc3) as [Hr3 Hs3].
  pose proof (lacks_voice_print_result f2 Hv2) as Hr2.
  assert (Hhas : forall f s s', status (result_of f) = s' ->
                               has_status s (result_of f) = has_status s
                                 (Result [] s' [] 0 0 None)).
  { intros f s s' <-. reflexivity. }
  split; [|split; [|split; [|split]]].
  - now rewrite (Permutation_length Hres).
  - rewrite (count_status_permutation _ _ _ Hres). unfold count_status.
    cbn [List.filter]. rewrite (Hhas f1 _ _ Hs1), (Hhas f3 _ _ Hs3), Hr2. reflexivity.
  - rewrite (count_status_permutation _ _ _ Hres). unfold count_status.
    cbn [List.filter]. rewrite (Hhas f1 _ _ Hs1), (Hhas f3 _ _ Hs3), Hr2. reflexivity.
  - intros r Hin Hst. rewrite Hres in Hin.
    repeat (apply elem_of_cons in Hin as [->|Hin]); try congruence.
    + now rewrite Hr2.
    + inversion Hin.
  - intros f Hf.
    assert (Hcf : runs_clean f).
    { repeat (apply elem_of_cons in Hf as [->|Hf]); try assumption.
      inversion Hf. }
    destruct (runs_clean_result f Hcf) as [Hrf Hsf]. rewrite <- Hrf.
    split; [|assumption].
    rewrite Hres, !elem_of_cons.
    repeat (apply elem_of_cons in Hf as [->|Hf]);
      [now left | now right; right; left | inversion Hf].
Qed.

Lemma batch_one_result_per_input_witness :
  batch_results scenario_E
    (fold_left collect
       [clean_future (lit "c.mp4"); clean_future (lit "a.mp4");
        orphan_future (lit "b.mp4")] []) /\
  length (fold_left collect
            [clean_future (lit "c.mp4"); clean_future (lit "a.mp4");
             orphan_future (lit "b.mp4")] [])
  = length scenario_E.
Proof.
  assert (H : batch_results scenario_E
    (fold_left collect
       [clean_future (lit "c.mp4"); clean_future (lit "a.mp4");
        orphan_future (lit "b.mp4")] [])).
  { eexists. split; [|reflexivity]. unfold scenario_E.
    apply Permutation_sym.
    eapply perm_trans; [apply perm_skip, perm_swap|]. apply perm_swap. }
  split; [exact H | exact (proj1 (batch_one_result_per_input _ _ H))].
Defined.

(** Scenario E, whatever the order of completion: one error and two
    successes. *)
Example scenario_E_results :
  map (fun r => (status r, error r)) (fold_left collect scenario_E [])
  = [(success_status, None); (error_status, Some MSG_NO_VOICE_PRINT);
     (success_status, None)] /\
  runs_clean (clean_future (lit "a.mp4")) /\
  lacks_voice_print (orphan_future (lit "b.mp4")).
Proof.
  split; [reflexivity|]. split.
  - repeat split. eexists _, _, _. split; reflexivity.
  - split; reflexivity.
Qed.

End BatchCoordinator.

(** ** The timestamp file, written and read back
       (detect_theodore.py, generate_shorts.py) *)

Section Numerals.

Lemma str_of_uint_digits u : Forall (fun c => isdigit c = true) (str_of_uint u).
Proof. induction u; simpl; constructor; (reflexivity || assumption). Qed.

Lemma uint_of_str_of_uint u : uint_of_str true (str_of_uint u) = Some u.
Proof. induction u; simpl; [reflexivity | rewrite IHu; reflexivity ..]. Qed.

Lemma uint_of_str_nonnil u :
  u <> Decimal.Nil -> uint_of_str false (str_of_uint u) = Some u.
Proof.
  destruct u; simpl; [congruence | rewrite uint_of_str_of_uint; reflexivity ..].
Qed.

Lemma to_uint_nonnil n : N.to_uint n <> Decimal.Nil.
Proof.
  destruct n as [|p]; simpl; [discriminate|].
  apply DecimalPos.Unsigned.to_uint_nonnil.
Qed.

Lemma str_of_uint_nonnil u : u <> Decimal.Nil -> str_of_uint u <> [].
Proof. destruct u; simpl; congruence. Qed.

Lemma digits_numeral n : 0 <= n -> numeral (digits n) n.
Proof.
  intros Hn. unfold numeral, digits. split; [|split].
  - apply str_of_uint_nonnil, to_uint_nonnil.
  - apply str_of_uint_digits.
  - unfold nat_of_str. rewrite uint_of_str_nonnil by apply to_uint_nonnil.
    simpl. rewrite DecimalN.Unsigned.of_to. f_equal. lia.
Qed.

(** A leading zero changes neither the kind of string nor its value. *)
Lemma numeral_zero s v : numeral s v -> numeral (ZERO :: s) v.
Proof.
  intros (Hne & Hd & Hv). split; [discriminate|]. split.
  - constructor; [reflexivity | assumption].
  - unfold nat_of_str in *. simpl.
    destruct s as [|c r]; [congruence|].
    apply Forall_cons in Hd as [Hc Hr]. simpl in Hv |- *. rewrite Hc in *.
    destruct (uint_of_str true r) as [u|]; [|discriminate].
    simpl in *. exact Hv.
Qed.

Lemma zfill_numeral width s v : numeral s v -> numeral (zfill width s) v.
Proof.
  intros H. unfold zfill. induction (width - length s)%nat; simpl;
    [assumption | now apply numeral_zero].
Qed.

Lemma format_02d_numeral n : 0 <= n -> numeral (format_02d n) n.
Proof.
  intros Hn. unfold format_02d.
  destruct (Z.ltb_spec n 0); [lia|].
  now apply zfill_numeral, digits_numeral.
Qed.

Lemma str_of_int_numeral n : 0 <= n -> numeral (str_of_int n) n.
Proof.
  intros Hn. unfold str_of_int.
  destruct (Z.ltb_spec n 0); [lia|]. now apply digits_numeral.
Qed.

End Numerals.

Section Strings.

Lemma digit_range c : isdigit c = true -> (48 <= c <= 57)%N.
Proof.
  unfold isdigit. intros H. apply andb_true_iff in H as [H1 H2].
  apply N.leb_le in H1, H2. lia.
Qed.

Lemma digit_not_space c : isdigit c = true -> isspace c = false.
Proof.
  intros H. apply digit_range in H. unfold isspace.
  repeat match goal with
         | |- context [N.leb ?a ?b] => destruct (N.leb_spec a b); try lia
         | |- context [N.eqb ?a ?b] => destruct (N.eqb_spec a b); try lia
         end; reflexivity.
Qed.

Lemma contains_app c a b : contains c (a ++ b) = contains c a || contains c b.
Proof. apply existsb_app. Qed.

Lemma contains_digits c s :
  Forall (fun d => isdigit d = true) s -> isdigit c = false -> contains c s = false.
Proof.
  intros Hs Hc. induction Hs as [|d s Hd Hs IH]; simpl; [reflexivity|].
  rewrite IH, orb_false_r. destruct (N.eqb_spec c d); [congruence | reflexivity].
Qed.

Lemma split_none sep s : contains sep s = false -> split sep s = [s].
Proof.
  induction s as [|c s IH]; simpl; [reflexivity|].
  intros H. apply orb_false_iff in H as [Hc Hs].
  rewrite N.eqb_sym, Hc, IH by assumption. reflexivity.
Qed.

Lemma split_app sep a b :
  contains sep a = false -> split sep (a ++ sep :: b) = a :: split sep b.
Proof.
  induction a as [|c a IH]; simpl.
  - intros _. now rewrite N.eqb_refl.
  - intros H. apply orb_false_iff in H as [Hc Ha].
    rewrite N.eqb_sym, Hc, IH by assumption. reflexivity.
Qed.

Lemma lstrip_spaces ws s :
  Forall (fun c => isspace c = true) ws -> lstrip (ws ++ s) = lstrip s.
Proof.
  induction 1 as [|c ws Hc Hws IH]; simpl; [reflexivity|]. now rewrite Hc.
Qed.

Lemma lstrip_tight s : starts_tight s -> lstrip s = s.
Proof. destruct s as [|c r]; simpl; [reflexivity|]. now intros ->. Qed.

(** [strip] removes the white space around a string with tight ends. *)
Lemma strip_core ws1 s ws2 :
  Forall (fun c => isspace c = true) ws1 ->
  Forall (fun c => isspace c = true) ws2 ->
  starts_tight s -> starts_tight (rev s) ->
  strip (ws1 ++ s ++ ws2) = s.
Proof.
  intros H1 H2 Hs Hr. unfold strip, rstrip.
  rewrite lstrip_spaces by assumption.
  destruct s as [|c r].
  - simpl. rewrite <- (app_nil_r ws2), lstrip_spaces by assumption.
    reflexivity.
  - rewrite (lstrip_tight ((c :: r) ++ ws2)) by exact Hs.
    rewrite rev_app_distr, lstrip_spaces by now apply Forall_rev.
    rewrite (lstrip_tight (rev (c :: r))) by exact Hr. apply rev_involutive.
Qed.

Lemma starts_tight_app a b : a <> [] -> starts_tight a -> starts_tight (a ++ b).
Proof. destruct a; [congruence | intros _ H; exact H]. Qed.

Lemma ends_tight_app a b :
  b <> [] -> starts_tight (rev b) -> starts_tight (rev (a ++ b)).
Proof.
  intros Hb H. rewrite rev_app_distr. apply starts_tight_app; [|assumption].
  intros Hr. apply Hb. rewrite <- (rev_involutive b), Hr. reflexivity.
Qed.

Lemma digits_tight s :
  Forall (fun c => isdigit c = true) s -> starts_tight s /\ starts_tight (rev s).
Proof.
  intros H. split.
  - destruct H; simpl; [exact I | now apply digit_not_space].
  - apply Forall_rev in H. destruct H; simpl; [exact I | now apply digit_not_space].
Qed.

Lemma numeral_tight s v : numeral s v -> starts_tight s /\ starts_tight (rev s).
Proof. intros (_ & H & _). now apply digits_tight. Qed.

(** [int()] reads a numeral as its value. *)
Lemma int_of_str_numeral s v : numeral s v -> int_of_str s = Some v.
Proof.
  intros Hn. pose proof (numeral_tight s v Hn) as [Hs Hr].
  destruct Hn as (Hne & Hd & Hv). unfold int_of_str.
  pose proof (strip_core [] s [] ltac:(constructor) ltac:(constructor) Hs Hr)
    as Hstrip.
  simpl in Hstrip. rewrite app_nil_r in Hstrip. rewrite Hstrip.
  destruct s as [|c r]; [congruence|].
  apply Forall_cons in Hd as [Hc _]. apply digit_range in Hc.
  unfold PLUS, MINUS.
  destruct (N.eqb_spec c 43); [lia|].
  destruct (N.eqb_spec c 45); [lia|]. exact Hv.
Qed.

End Strings.

Section TimeOfDay.
Import DetectTheodore GenerateShorts.

Lemma floordiv_pos (q : Q) (p : positive) :
  floordiv q (Z.pos p # 1) = inject_Z (Qfloor q / Z.pos p).
Proof.
  unfold floordiv. f_equal. destruct q as [a b].
  unfold Qdiv, Qmult, Qinv, Qfloor; simpl.
  rewrite Z.mul_1_r, Pos2Z.inj_mul. symmetry. apply Zdiv.Zdiv_Zdiv; lia.
Qed.

Lemma Qfloor_fmod (q : Q) (p : positive) :
  Qfloor (fmod q (Z.pos p # 1)) = Qfloor q mod Z.pos p.
Proof.
  unfold fmod. rewrite floordiv_pos. destruct q as [a b].
  unfold Qminus, Qplus, Qopp, Qmult, inject_Z, Qfloor; simpl.
  rewrite !Pos.mul_1_r, Z.mul_1_r.
  set (n := a / Z.pos b).
  replace (a + - (Z.pos p * (n / Z.pos p)) * Z.pos b)
    with (a + (- (Z.pos p * (n / Z.pos p))) * Z.pos b) by reflexivity.
  rewrite Z.div_add by lia. fold n.
  rewrite (Z.mod_eq n (Z.pos p)) by lia. lia.
Qed.

Lemma int_of_float_Z (z : Z) : int_of_float (inject_Z z) = z.
Proof.
  unfold int_of_float. destruct (Qle_bool 0 (inject_Z z));
    [apply Qfloor_Z | apply Qceiling_Z].
Qed.

Lemma int_of_float_nonneg (x : Q) : 0 <= Qfloor x -> int_of_float x = Qfloor x.
Proof.
  intros H. unfold int_of_float.
  destruct (Qle_bool 0 x) eqn:Hx; [reflexivity|].
  exfalso. apply not_true_iff_false in Hx. apply Hx, Qle_bool_iff.
  apply Qle_trans with (inject_Z (Qfloor x)); [|apply Qfloor_le].
  change 0%Q with (inject_Z 0). rewrite <- Zle_Qle. exact H.
Qed.

Lemma Qfloor_nonneg (q : Q) : (0 <= q)%Q -> 0 <= Qfloor q.
Proof. intros H. apply (Qfloor_resp_le 0 q) in H. exact H. Qed.

(** What [format_time] writes is the time of day of the whole seconds. *)
Lemma format_time_hms (q : Q) : (0 <= q)%Q -> is_hms (format_time q) (Qfloor q).
Proof.
  intros Hq. apply Qfloor_nonneg in Hq. set (n := Qfloor q) in *.
  unfold format_time.
  change (3600%Q) with (Z.pos 3600 # 1). change (60%Q) with (Z.pos 60 # 1).
  rewrite !floordiv_pos, !int_of_float_Z, Qfloor_fmod.
  rewrite (int_of_float_nonneg (fmod q (Z.pos 60 # 1)));
    rewrite Qfloor_fmod; fold n; [|apply Z.mod_pos_bound; lia].
  exists (format_02d (n / 3600)), (format_02d (n mod 3600 / 60)),
         (format_02d (n mod 60)), (n / 3600), (n mod 3600 / 60), (n mod 60).
  split; [reflexivity|].
  split; [apply format_02d_numeral, Z.div_pos; lia|].
  split; [apply format_02d_numeral, Z.div_pos; [apply Z.mod_pos_bound|]; lia|].
  split; [apply format_02d_numeral, Z.mod_pos_bound; lia|].
  pose proof (Z.div_mod n 3600 ltac:(lia)).
  pose proof (Z.div_mod (n mod 3600) 60 ltac:(lia)).
  assert (Hmm : (n mod 3600) mod 60 = n mod 60).
  { rewrite <- (Z.mod_mod_divide n 3600 60); [reflexivity|].
    exists 60. reflexivity. }
  lia.
Qed.

Lemma numeral_no c s v : numeral s v -> isdigit c = false -> contains c s = false.
Proof. intros (_ & Hd & _). now apply contains_digits. Qed.

Lemma hms_seconds_is_hms s v : is_hms s v -> hms_seconds s = Some v.
Proof.
  intros (hh & mm & ss & h & m & sec & -> & Hh & Hm & Hs & ->).
  unfold hms_seconds. cbn [app].
  rewrite split_app by now apply (numeral_no _ _ _ Hh).
  rewrite split_app by now apply (numeral_no _ _ _ Hm).
  rewrite split_none by now apply (numeral_no _ _ _ Hs).
  simpl.
  rewrite (int_of_str_numeral _ _ Hh), (int_of_str_numeral _ _ Hm),
          (int_of_str_numeral _ _ Hs).
  reflexivity.
Qed.

Lemma is_hms_no c s v :
  is_hms s v -> isdigit c = false -> (c =? COLON)%N = false -> contains c s = false.
Proof.
  intros (hh & mm & ss & h & m & sec & -> & Hh & Hm & Hs & _) Hc Hcolon.
  rewrite !contains_app.
  rewrite (numeral_no _ _ _ Hh), (numeral_no _ _ _ Hm), (numeral_no _ _ _ Hs)
    by assumption.
  simpl. rewrite Hcolon. reflexivity.
Qed.

Lemma is_hms_tight s v :
  is_hms s v -> s <> [] /\ starts_tight s /\ starts_tight (rev s).
Proof.
  intros (hh & mm & ss & h & m & sec & -> & Hh & Hm & Hs & _).
  pose proof (numeral_tight _ _ Hh) as [Hh1 _].
  pose proof (numeral_tight _ _ Hs) as [_ Hs2].
  destruct Hh as (Hhne & _), Hs as (Hsne & _).
  split; [|split].
  - destruct hh; [congruence | discriminate].
  - now apply starts_tight_app.
  - rewrite !app_assoc. now apply ends_tight_app.
Qed.

End TimeOfDay.

Section TimestampFile.
Import DetectTheodore GenerateShorts.

Lemma contains_here c a b : contains c (a ++ c :: b) = true.
Proof.
  rewrite contains_app. simpl. rewrite N.eqb_refl. apply orb_true_r.
Qed.

Lemma line_body_no c index t1 t2 i v1 v2 :
  numeral index i -> is_hms t1 v1 -> is_hms t2 v2 ->
  isdigit c = false -> (c =? COLON)%N = false -> (c =? DOT)%N = false ->
  (c =? SPACE)%N = false -> (c =? ARROW)%N = false ->
  contains c (line_body index t1 t2) = false.
Proof.
  intros Hi H1 H2 Hd Hcolon Hdot Hspace Harrow. unfold line_body.
  rewrite !contains_app, (numeral_no _ _ _ Hi), (is_hms_no _ _ _ H1),
    (is_hms_no _ _ _ H2) by assumption.
  simpl. now rewrite Hdot, Hspace, Harrow.
Qed.

Lemma line_body_tight index t1 t2 i v1 v2 :
  numeral index i -> is_hms t1 v1 -> is_hms t2 v2 ->
  starts_tight (line_body index t1 t2) /\
  starts_tight (rev (line_body index t1 t2)).
Proof.
  intros Hi H1 H2. unfold line_body.
  pose proof (numeral_tight _ _ Hi) as [Hi1 _].
  destruct (is_hms_tight _ _ H2) as (Hne & _ & Ht2).
  destruct Hi as (Hine & _). split.
  - now apply starts_tight_app.
  - rewrite !app_assoc. now apply ends_tight_app.
Qed.

(** Reading one line of the detector. *)
Lemma read_line_body segments index t1 t2 i v1 v2 :
  numeral index i -> is_hms t1 v1 -> is_hms t2 v2 ->
  read_line segments (line_body index t1 t2 ++ [LF])
  = segments ++ [(v1, v2)].
Proof.
  intros Hi H1 H2. unfold read_line.
  destruct (line_body_tight _ _ _ _ _ _ Hi H1 H2) as [Hs Hr].
  pose proof (strip_core [] (line_body index t1 t2) [LF] ltac:(constructor)
                ltac:(repeat constructor) Hs Hr) as Hstrip.
  simpl in Hstrip. rewrite Hstrip. clear Hstrip.
  assert (Harrow : contains ARROW (line_body index t1 t2) = true).
  { unfold line_body. rewrite !app_assoc.
    change ([SPACE; ARROW; SPACE]) with ([SPACE] ++ ARROW :: [SPACE]).
    rewrite !app_assoc, <- (app_assoc _ (ARROW :: [SPACE]) t2).
    apply contains_here. }
  rewrite Harrow. simpl.
  assert (Hdigit : match line_body index t1 t2 with
                   | c :: _ => isdigit c
                   | [] => false
                   end = true).
  { destruct Hi as (Hne & Hd & _). unfold line_body.
    destruct Hd as [|c r Hc _]; [congruence | exact Hc]. }
  rewrite Hdigit.
  assert (Hsplit : split ARROW (line_body index t1 t2)
                   = [index ++ [DOT; SPACE] ++ t1 ++ [SPACE]; [SPACE] ++ t2]).
  { replace (line_body index t1 t2)
      with ((index ++ [DOT; SPACE] ++ t1 ++ [SPACE]) ++ ARROW :: [SPACE] ++ t2)
      by (unfold line_body; now rewrite <- !app_assoc).
    rewrite split_app, split_none; [reflexivity| |].
    - rewrite contains_app, (is_hms_no _ _ _ H2); reflexivity.
    - rewrite !contains_app, (numeral_no _ _ _ Hi), (is_hms_no _ _ _ H1);
        reflexivity. }
  rewrite Hsplit.
  assert (Hdot : split DOT (index ++ [DOT; SPACE] ++ t1 ++ [SPACE])
                 = [index; [SPACE] ++ t1 ++ [SPACE]]).
  { change ([DOT; SPACE] ++ t1 ++ [SPACE]) with (DOT :: [SPACE] ++ t1 ++ [SPACE]).
    rewrite split_app, split_none; [reflexivity| |].
    - rewrite !contains_app, (is_hms_no _ _ _ H1); reflexivity.
    - now apply (numeral_no _ _ _ Hi). }
  rewrite Hdot. cbn [List.last].
  destruct (is_hms_tight _ _ H1) as (_ & Hs1 & Hr1).
  destruct (is_hms_tight _ _ H2) as (_ & Hs2 & Hr2).
  rewrite (strip_core [SPACE] t1 [SPACE]) by (repeat constructor || assumption).
  pose proof (strip_core [SPACE] t2 [] ltac:(repeat constructor)
                ltac:(constructor) Hs2 Hr2) as Hstrip2.
  rewrite app_nil_r in Hstrip2. rewrite Hstrip2.
  rewrite (hms_seconds_is_hms _ _ H1), (hms_seconds_is_hms _ _ H2).
  reflexivity.
Qed.

Lemma file_lines_nonempty c r : file_lines (c :: r) <> [].
Proof.
  simpl. destruct (c =? LF)%N; [discriminate|].
  destruct (file_lines r); discriminate.
Qed.

(** The lines of a text that follows a complete line. *)
Lemma file_lines_after_line pre rest :
  file_lines ((pre ++ [LF]) ++ rest) = file_lines (pre ++ [LF]) ++ file_lines rest.
Proof.
  induction pre as [|c pre IH]; simpl.
  - reflexivity.
  - rewrite IH. destruct (c =? LF)%N; [reflexivity|].
    destruct (file_lines (pre ++ [LF])) as [|l ls] eqn:Hl; [|reflexivity].
    destruct pre; simpl in Hl.
    + discriminate.
    + now apply file_lines_nonempty in Hl.
Qed.

Lemma file_lines_one_line l :
  contains LF l = false -> file_lines (l ++ [LF]) = [l ++ [LF]].
Proof.
  induction l as [|c l IH]; intros H; [reflexivity|].
  unfold contains in H. cbn [existsb] in H.
  apply orb_false_iff in H as [Hc Hl]. rewrite N.eqb_sym in Hc.
  cbn [app file_lines]. rewrite Hc, (IH Hl). reflexivity.
Qed.

(** The header lines hold no segment. *)
Lemma read_header segments :
  fold_left read_line (file_lines (header ++ rule)) segments = segments.
Proof. reflexivity. Qed.

Lemma timestamp_line_body i seg :
  timestamp_line i seg
  = line_body (str_of_int i) (format_time (fst seg)) (format_time (snd seg))
    ++ [LF].
Proof. unfold timestamp_line, line_body. now rewrite <- !app_assoc. Qed.

(** Reading back the lines of the segments, numbered from [k + 1]. *)
Lemma read_segment_lines (segs : list (Q * Q)) : forall (k : nat) segments,
  Forall (fun seg => (0 <= fst seg)%Q /\ (0 <= snd seg)%Q) segs ->
  fold_left read_line
    (file_lines
       (concat (imap (fun (i : nat) seg =>
                        timestamp_line (Z.of_nat (k + i) + 1) seg) segs)))
    segments
  = segments ++ map whole_seconds segs.
Proof.
  induction segs as [|seg segs IH]; intros k segments Hall.
  - simpl. now rewrite app_nil_r.
  - apply Forall_cons in Hall as [[Hs He] Hall].
    rewrite imap_cons. cbn [concat].
    rewrite timestamp_line_body.
    assert (Hi : numeral (str_of_int (Z.of_nat (k + 0) + 1)) (Z.of_nat (k + 0) + 1))
      by (apply str_of_int_numeral; lia).
    pose proof (format_time_hms _ Hs) as H1.
    pose proof (format_time_hms _ He) as H2.
    rewrite file_lines_after_line, file_lines_one_line
      by now apply (line_body_no _ _ _ _ _ _ _ Hi H1 H2).
    simpl. rewrite (read_line_body _ _ _ _ _ _ _ Hi H1 H2).
    rewrite (imap_ext _ (fun (i : nat) seg =>
                           timestamp_line (Z.of_nat (S k + i) + 1) seg)).
    + rewrite IH by assumption. now rewrite <- app_assoc.
    + intros i x _. simpl. do 2 f_equal. lia.
Qed.

(** C4. The timestamp file that the detector writes for segments with
    non-negative bounds, header lines included, is read back by
    [read_timestamps] as the same segments in the same order, each bound
    rounded down to a whole second; the segments of the consolidation,
    whose bounds are ints, are read back unchanged. *)
Theorem timestamps_round_trip (segs : list (Q * Q)) :
  (forall seg, seg ∈ segs -> (0 <= fst seg)%Q /\ (0 <= snd seg)%Q) ->
  read_timestamps (Some (timestamps_text segs)) = map whole_seconds segs /\
  (forall consolidated : list (Z * Z),
     segs = as_numbers consolidated ->
     read_timestamps (Some (timestamps_text segs)) = consolidated).
Proof.
  intros Hall.
  assert (Hread : read_timestamps (Some (timestamps_text segs))
                  = map whole_seconds segs).
  { unfold read_timestamps, timestamps_text.
    change (header ++ rule ++ ?x)
      with ((removelast (header ++ rule) ++ [LF]) ++ x).
    rewrite file_lines_after_line, fold_left_app.
    change (removelast (header ++ rule) ++ [LF]) with (header ++ rule).
    rewrite read_header.
    apply (read_segment_lines segs 0 []). now apply Forall_forall. }
  split; [exact Hread|].
  intros consolidated ->. rewrite Hread. unfold as_numbers.
  rewrite map_map. rewrite <- (map_id consolidated) at 2.
  apply map_ext. intros [a b]. unfold whole_seconds. cbn [fst snd].
  now rewrite !Qfloor_Z.
Qed.

Lemma timestamps_round_trip_witness :
  (forall seg, seg ∈ [(0 # 1, 6 # 1); (19 # 2, 3700 # 1)]%Q ->
               (0 <= fst seg)%Q /\ (0 <= snd seg)%Q) /\
  read_timestamps (Some (timestamps_text [(0 # 1, 6 # 1); (19 # 2, 3700 # 1)]%Q))
  = [(0, 6); (9, 3700)].
Proof.
  assert (H : forall seg, seg ∈ [(0 # 1, 6 # 1); (19 # 2, 3700 # 1)]%Q ->
                          (0 <= fst seg)%Q /\ (0 <= snd seg)%Q).
  { intros seg Hin.
    repeat (apply elem_of_cons in Hin as [->|Hin]; [split; discriminate|]).
    inversion Hin. }
  split; [exact H|].
  exact (proj1 (timestamps_round_trip _ H)).
Defined.

End TimestampFile.

(** ** More on splitting into shorts (generate_shorts.py) *)

Section ClipSplitterMore.
Import GenerateShorts.

Lemma split_into_shorts_cons seg segments :
  split_into_shorts (seg :: segments)
  = split_segment [] seg ++ split_into_shorts segments.
Proof.
  unfold split_into_shorts. rewrite !split_into_shorts_flat. reflexivity.
Qed.

Lemma split_segment_in_bounds seg :
  3 <= duration seg <= 60 -> split_segment [] seg = [seg].
Proof.
  destruct seg as [s e]. unfold split_segment, duration; simpl.
  unfold SHORT_MAX_DURATION, SHORT_MIN_DURATION. intros H.
  destruct (Z.leb_spec (e - s) 60); [|lia].
  destruct (Z.leb_spec 3 (e - s)); [reflexivity | lia].
Qed.

Lemma split_into_shorts_in_bounds segments :
  Forall (fun seg => 3 <= duration seg <= 60) segments ->
  split_into_shorts segments = segments.
Proof.
  induction 1 as [|seg segments Hseg Hall IH]; [reflexivity|].
  rewrite split_into_shorts_cons, split_segment_in_bounds, IH by assumption.
  reflexivity.
Qed.

Lemma split_into_shorts_clip_bounds segments :
  Forall (fun clip => 3 <= duration clip <= 60) (split_into_shorts segments).
Proof.
  apply Forall_forall. intros clip Hclip.
  apply split_into_shorts_elem in Hclip as (seg & _ & Hclip).
  apply split_segment_clips in Hclip as [(Hmax & -> & Hmin)|(_ & _ & _ & Hdur)].
  - lia.
  - unfold SHORT_TARGET_DURATION, SHORT_MIN_DURATION in Hdur. lia.
Qed.

(** X1. Splitting is idempotent: the shorts, split again, are the shorts. *)
Theorem split_into_shorts_idempotent (segments : list (Z * Z)) :
  split_into_shorts (split_into_shorts segments) = split_into_shorts segments.
Proof. apply split_into_shorts_in_bounds, split_into_shorts_clip_bounds. Qed.

Lemma split_long_tiles (n : nat) : forall cs e,
  (Z.to_nat (e - cs) <= n)%nat -> e = cs \/ 3 <= e - cs ->
  tiles cs e (split_long cs e []).
Proof.
  induction n as [|n IH]; intros cs e Hn Hpre.
  - rewrite split_long_done by lia. simpl. lia.
  - destruct (Z.le_gt_cases e cs) as [Hdone|Hlt].
    { rewrite split_long_done by lia. simpl. lia. }
    destruct (Z.lt_ge_cases (e - cs) 33) as [Hlast|Hslice].
    + rewrite split_long_last by lia. simpl. lia.
    + rewrite split_long_slice, split_long_app by lia. simpl.
      split; [reflexivity|]. split; [lia|]. apply IH; lia.
Qed.

Lemma tiles_total clips : forall start end_,
  tiles start end_ clips ->
  fold_right Z.add 0 (map duration clips) = end_ - start.
Proof.
  induction clips as [|clip clips IH]; intros start end_; simpl.
  - lia.
  - intros (H1 & H2 & Ht). rewrite (IH _ _ Ht). unfold duration. lia.
Qed.

Lemma split_segment_tiles start end_ :
  3 <= end_ - start -> tiles start end_ (split_segment [] (start, end_)).
Proof.
  intros Hmin. unfold split_segment.
  unfold SHORT_MAX_DURATION, SHORT_MIN_DURATION.
  destruct (Z.leb_spec (end_ - start) 60).
  - destruct (Z.leb_spec 3 (end_ - start)); [|lia]. simpl. lia.
  - apply (split_long_tiles (Z.to_nat (end_ - start))); lia.
Qed.

(** X2. A segment of at least 3 s is cut without loss or overlap: its
    clips start where it starts, follow one another without gap, and end
    where it ends; their durations add up to its duration. *)
Theorem split_into_shorts_tiles (start end_ : Z) :
  3 <= end_ - start ->
  tiles start end_ (split_into_shorts [(start, end_)]) /\
  fold_right Z.add 0 (map duration (split_into_shorts [(start, end_)]))
  = end_ - start.
Proof.
  intros Hmin.
  assert (Ht : tiles start end_ (split_into_shorts [(start, end_)])).
  { rewrite split_into_shorts_cons, app_nil_r. now apply split_segment_tiles. }
  split; [exact Ht | now apply tiles_total].
Qed.

Lemma split_into_shorts_tiles_witness :
  3 <= 75 - 0 /\ tiles 0 75 (split_into_shorts [(0, 75)]).
Proof.
  assert (H : 3 <= 75 - 0) by lia.
  split; [exact H | exact (proj1 (split_into_shorts_tiles 0 75 H))].
Defined.

Lemma tiles_sorted clips : forall start end_,
  tiles start end_ clips ->
  StronglySorted precedes clips /\
  Forall (fun clip => start <= fst clip /\ snd clip <= end_) clips.
Proof.
  induction clips as [|clip clips IH]; intros start end_; simpl.
  - intros _. split; constructor.
  - intros (H1 & H2 & Ht). destruct (IH _ _ Ht) as [Hs Hb].
    assert (Hend : snd clip <= end_).
    { destruct clips as [|c cs]; simpl in Ht; [lia|].
      apply Forall_cons in Hb as [Hc _]. lia. }
    split.
    + constructor; [assumption|].
      eapply Forall_impl; [exact Hb|]. intros c. unfold precedes. lia.
    + constructor; [lia|].
      eapply Forall_impl; [exact Hb|]. intros c. simpl. lia.
Qed.

Lemma split_segment_sorted seg :
  StronglySorted precedes (split_segment [] seg) /\
  Forall (fun clip => fst seg <= fst clip /\ snd clip <= snd seg)
         (split_segment [] seg).
Proof.
  destruct seg as [s e].
  destruct (Z.lt_ge_cases (e - s) 3) as [Hshort|Hmin].
  - rewrite split_segment_too_short by (unfold duration; simpl; lia).
    split; constructor.
  - apply (tiles_sorted _ s e). now apply split_segment_tiles.
Qed.

Lemma split_into_shorts_keeps_order (segments : list (Z * Z)) :
  StronglySorted precedes segments ->
  StronglySorted precedes (split_into_shorts segments).
Proof.
  intros Hs.
  induction Hs as [|seg segments Hs IH Hall]; [constructor|].
  rewrite split_into_shorts_cons.
  destruct (split_segment_sorted seg) as [Hseg Hb].
  apply StronglySorted_app_2; [|assumption..].
  intros x1 x2 Hx1 Hx2. rewrite Forall_forall in Hb, Hall.
  apply Hb in Hx1.
  apply split_into_shorts_elem in Hx2 as (seg2 & Hseg2 & Hx2).
  destruct (split_segment_sorted seg2) as [_ Hb2].
  rewrite Forall_forall in Hb2. apply Hb2 in Hx2.
  apply Hall in Hseg2. unfold precedes in *. simpl in *. lia.
Qed.

Lemma split_into_shorts_within (segments : list (Z * Z)) clip :
  clip ∈ split_into_shorts segments ->
  exists seg, seg ∈ segments /\ fst seg <= fst clip /\ snd clip <= snd seg.
Proof.
  intros Hclip.
  apply split_into_shorts_elem in Hclip as (seg & Hseg & Hclip).
  exists seg. split; [assumption|].
  destruct (split_segment_sorted seg) as [_ Hb].
  rewrite Forall_forall in Hb. now apply Hb.
Qed.

(** X3. Splitting keeps order and disjointness: when every segment ends no
    later than each later segment starts, the same holds of the shorts, and
    every short lies within a segment. *)
Theorem split_into_shorts_sorted (segments : list (Z * Z)) :
  StronglySorted precedes segments ->
  StronglySorted precedes (split_into_shorts segments) /\
  (forall clip, clip ∈ split_into_shorts segments ->
     exists seg, seg ∈ segments /\
                 fst seg <= fst clip /\ snd clip <= snd seg).
Proof.
  intros Hs. split.
  - now apply split_into_shorts_keeps_order.
  - apply split_into_shorts_within.
Qed.

Lemma split_into_shorts_sorted_witness :
  StronglySorted precedes [(0, 75); (80, 90)] /\
  StronglySorted precedes (split_into_shorts [(0, 75); (80, 90)]).
Proof.
  assert (H : StronglySorted precedes [(0, 75); (80, 90)]).
  { repeat constructor. unfold precedes; simpl; lia. }
  split; [exact H | exact (proj1 (split_into_shorts_sorted _ H))].
Defined.

End ClipSplitterMore.

(** ** More on the detector (detect_theodore.py) *)

Section DetectorMore.
Import DetectTheodore.

Lemma total_theodore_time_fold (segs : list (Z * Z)) : forall acc,
  fold_left (fun acc seg => acc + (snd seg - fst seg)) segs acc
  = acc + fold_right Z.add 0 (map duration segs).
Proof.
  induction segs as [|seg segs IH]; intros acc; simpl; [lia|].
  rewrite IH. unfold duration. lia.
Qed.

Lemma runs_total rest : forall cs ce,
  fold_right Z.add 0 (map duration (map run_seconds (runs cs ce rest)))
  = 3 * (ce - cs + 1 + Z.of_nat (length rest)).
Proof.
  induction rest as [|idx rest IH]; intros cs ce.
  - simpl. unfold duration, run_seconds, SEGMENT_DURATION_SEC; simpl. lia.
  - cbn [runs length]. destruct (Z.eqb_spec idx (ce + 1)) as [->|Hne].
    + rewrite IH. lia.
    + cbn [map fold_right]. rewrite IH.
      unfold duration, run_seconds, SEGMENT_DURATION_SEC; simpl. lia.
Qed.

Lemma consolidate_total (detections : list Z) :
  total_theodore_time (consolidate detections)
  = 3 * Z.of_nat (length detections).
Proof.
  unfold total_theodore_time. rewrite total_theodore_time_fold.
  destruct detections as [|d0 rest]; [reflexivity|].
  rewrite consolidate_runs, runs_total. cbn [length]. lia.
Qed.

(** X4. Consolidation keeps the matched time: whatever the detections,
    the durations of the segments add up to 3 s per detection. *)
Theorem consolidate_total_time (detections : list Z) :
  total_theodore_time (consolidate detections)
  = 3 * Z.of_nat (length detections).
Proof. apply consolidate_total. Qed.






Lemma detection_is_index (ws : list window) (i : Z) :
  i ∈ detections (scan ws) -> 0 <= i < Z.of_nat (length ws).
Proof.
  rewrite scan_detections, list_elem_of_In, in_map_iff.
  intros ([j w] & <- & Hin). apply filter_In in Hin as [Hin _].
  apply list_elem_of_In in Hin. unfold indexed in Hin.
  apply elem_of_lookup_imap in Hin as (k & w' & Heq & Hk).
  injection Heq as -> ->. apply lookup_lt_Some in Hk. simpl. lia.
Qed.

Lemma detections_length (ws : list window) :
  (length (detections (scan ws)) <= length ws)%nat.
Proof.
  rewrite scan_detections, length_map.
  etransitivity; [apply filter_length_le|].
  unfold indexed. now rewrite length_imap.
Qed.

Lemma detected_segment_bounds (ws : list window) s e :
  (s, e) ∈ detect_theodore_segments ws ->
  0 <= s < e /\ e <= 3 * Z.of_nat (length ws) /\ s mod 3 = 0 /\ e mod 3 = 0.
Proof.
  intros Hin. unfold detect_theodore_segments in Hin.
  apply consolidate_max_runs in Hin; [|apply scan_detections_ascending].
  destruct Hin as (a & b & (Hab & Hall & _) & -> & ->).
  pose proof (detection_is_index ws a (Hall a ltac:(lia))).
  pose proof (detection_is_index ws b (Hall b ltac:(lia))).
  repeat split; try lia.
  - apply Z.mod_mul. lia.
  - apply Z.mod_mul. lia.
Qed.

(** X6. The segments detected stay within the audio analysed: each one
    starts at or after 0, is not empty, ends at or before 3 s times the
    number of windows, and has bounds that are multiples of 3; together
    they last no longer than the windows analysed. *)
Theorem detect_theodore_segments_within_audio (ws : list window) :
  (forall s e, (s, e) ∈ detect_theodore_segments ws ->
     0 <= s < e /\ e <= 3 * Z.of_nat (length ws) /\
     s mod 3 = 0 /\ e mod 3 = 0) /\
  total_theodore_time (detect_theodore_segments ws)
  <= 3 * Z.of_nat (length ws).
Proof.
  split.
  - apply detected_segment_bounds.
  - unfold detect_theodore_segments. rewrite consolidate_total.
    pose proof (detections_length ws). lia.
Qed.

End DetectorMore.

(** ** More on the batch worker and its coordinator (detect_batch.py) *)

Section BatchMore.
Import DetectBatch.

Lemma batch_scan_matches windows indices : forall acc matches,
  scan windows indices acc = Returned matches ->
  matches = acc ++ matches_of (similarity_of windows)
                              (List.filter (matching windows) indices).
Proof.
  induction indices as [|i rest IH]; intros acc matches; simpl.
  - intros [= <-]. now rewrite app_nil_r.
  - assert (Hsim : forall sim, similarity (windows i) = Returned sim ->
                     similarity_of windows i = sim).
    { intros sim H. unfold similarity_of. now rewrite H. }
    unfold matching at 1.
    destruct (too_short (windows i)); simpl; [apply IH|].
    destruct (similarity (windows i)) as [sim|msg]; [|discriminate].
    intros Hscan. apply IH in Hscan. rewrite Hscan.
    destruct (fge sim SIMILARITY_THRESHOLD); simpl; [|reflexivity].
    rewrite <- app_assoc, (Hsim sim eq_refl). reflexivity.
Qed.

Lemma range_ascending n : ascending (range n).
Proof.
  unfold range, ascending. generalize 0%nat.
  induction (Z.to_nat n) as [|k IH]; intros start; simpl; [constructor|].
  constructor; [apply IH|]. destruct k; simpl; constructor. lia.
Qed.

Lemma ascending_filter_indices (f : Z -> bool) (l : list Z) :
  ascending l -> ascending (List.filter f l).
Proof.
  intros Hs. apply Sorted_StronglySorted in Hs; [|intros ? ? ?; lia].
  apply StronglySorted_Sorted.
  induction Hs as [|i l Hs IH Hall]; simpl; [constructor|].
  destruct (f i); [|assumption]. constructor; [assumption|].
  rewrite Forall_forall in *. intros j Hj. apply Hall.
  apply list_elem_of_In, filter_In in Hj as [Hj _]. now apply list_elem_of_In.
Qed.

(** The merge of the batch worker, on the matches of ascending indices,
    gives the runs of the indices. *)
Lemma consolidate_matches_of sim (indices : list Z) :
  ascending indices ->
  map as_pair (consolidate (matches_of sim indices))
  = DetectTheodore.consolidate indices.
Proof.
  intros Hasc. destruct indices as [|d0 rest]; [reflexivity|].
  unfold consolidate, DetectTheodore.consolidate; simpl.
  pose proof (mirrors_fold sim rest (DetectTheodore.RunState d0 d0 [])
                (MergeState (d0 * 3) ((d0 + 1) * 3) [])) as Hm.
  destruct Hm as (Hle & Hcs & Hce & Hacc).
  { unfold mirrors; simpl. repeat split; lia. }
  { exact Hasc. }
  set (st := fold_left DetectTheodore.run_step rest _) in *.
  set (st' := fold_left merge_step _ _) in *.
  destruct st as [cs ce acc]. simpl in *.
  rewrite close_run_nonempty by assumption.
  rewrite map_app, Hacc. simpl. unfold as_pair; simpl.
  rewrite Hcs, Hce. reflexivity.
Qed.

Lemma sum_durations_pairs (segs : list segment_dict) :
  sum_durations segs = DetectTheodore.total_theodore_time (map as_pair segs).
Proof.
  unfold sum_durations, DetectTheodore.total_theodore_time. generalize 0.
  induction segs as [|seg segs IH]; intros acc; simpl; [reflexivity|].
  apply IH.
Qed.

Lemma matched_time sim (indices : list Z) :
  ascending indices ->
  sum_durations (consolidate (matches_of sim indices))
  = 3 * Z.of_nat (length indices).
Proof.
  intros Hasc.
  rewrite sum_durations_pairs, consolidate_matches_of by assumption.
  apply consolidate_total.
Qed.

Lemma analyze_single_video_shape (t : task) :
  video (analyze_single_video t) = video_name t /\
  theodore_duration (analyze_single_video t)
  = sum_durations (segments (analyze_single_video t)) /\
  (status (analyze_single_video t) = error_status ->
   segments (analyze_single_video t) = [] /\
   theodore_duration (analyze_single_video t) = 0 /\
   error (analyze_single_video t) <> None) /\
  (error (analyze_single_video t) = None ->
   status (analyze_single_video t) = success_status).
Proof.
  unfold analyze_single_video.
  destruct (voice_print_exists t); simpl.
  - destruct (decoded t) as [[d w]|msg]; simpl.
    + destruct (scan w _ []) as [matches|msg]; simpl.
      * destruct (cleanup t); simpl; repeat split; congruence.
      * repeat split; congruence.
    + repeat split; congruence.
  - repeat split; congruence.
Qed.

(** X7. Whatever happens, the worker returns a well-formed result: it
    bears the name of the video, its matched duration is the sum of its
    segments; an error result has no segment, no matched time and its
    [error] field set (to the fixed message or to the text of the
    exception, which may be the empty text); a result whose [error] field
    is [None] is a success. *)
Theorem analyze_single_video_well_formed (t : task) :
  let r := analyze_single_video t in
  video r = video_name t /\
  theodore_duration r = sum_durations (segments r) /\
  (status r = error_status ->
   segments r = [] /\ theodore_duration r = 0 /\ error r <> None) /\
  (error r = None -> status r = success_status).
Proof. exact (analyze_single_video_shape t). Qed.

Lemma analyze_matched_time (t : task) d w :
  status (analyze_single_video t) = success_status ->
  decoded t = Returned (d, w) ->
  theodore_duration (analyze_single_video t)
  = 3 * Z.of_nat (length (List.filter (matching w)
        (range (int_of_float (d / inject_Z SEGMENT_DURATION_SEC))))).
Proof.
  unfold analyze_single_video. intros Hst Hdec. rewrite Hdec in *.
  destruct (voice_print_exists t); simpl in *; [|discriminate].
  destruct (scan w _ []) as [matches|msg] eqn:Hscan; simpl in *;
    [|discriminate].
  apply batch_scan_matches in Hscan. simpl in Hscan. subst matches.
  assert (Hsum : sum_durations (consolidate (matches_of (similarity_of w)
              (List.filter (matching w)
                 (range (int_of_float (d / inject_Z SEGMENT_DURATION_SEC))))))
            = 3 * Z.of_nat (length (List.filter (matching w)
                 (range (int_of_float (d / inject_Z SEGMENT_DURATION_SEC)))))).
  { apply matched_time, ascending_filter_indices, range_ascending. }
  destruct (cleanup t); simpl; exact Hsum.
Qed.

Lemma whole_windows_fit (d : Q) :
  (0 <= d)%Q ->
  (inject_Z (3 * Z.of_nat (length (range (int_of_float (d / inject_Z 3)))))
   <= d)%Q.
Proof.
  intros Hd.
  assert (Hx : (0 <= d / inject_Z 3)%Q).
  { apply Qle_shift_div_l; [reflexivity | lra]. }
  pose proof (Qfloor_nonneg _ Hx) as Hn.
  rewrite (int_of_float_nonneg _ Hn).
  unfold range. rewrite length_map, length_seq, Z2Nat.id by assumption.
  pose proof (Qfloor_le (d / inject_Z 3)) as Hfl.
  rewrite inject_Z_mult.
  assert (Hd3 : (inject_Z 3 * (d / inject_Z 3) == d)%Q).
  { apply Qmult_div_r. discriminate. }
  rewrite <- Hd3 at 2.
  apply Qmult_le_l; [reflexivity | exact Hfl].
Qed.

Lemma analyze_matched_within (t : task) :
  sound_duration t ->
  0 <= theodore_duration (analyze_single_video t) /\
  (inject_Z (theodore_duration (analyze_single_video t))
   <= total_duration (analyze_single_video t))%Q.
Proof.
  intros Hsound.
  destruct (status (analyze_single_video t)) eqn:Hst.
  - destruct (analyze_single_video_shape t) as (_ & _ & Herr & _).
    destruct (Herr Hst) as (_ & -> & _). split; [lia|].
    revert Hst. unfold analyze_single_video.
    destruct (voice_print_exists t); simpl; [|intros _; apply Qle_refl].
    destruct (decoded t) as [[d w]|msg] eqn:Hdec; simpl;
      [|intros _; apply Qle_refl].
    destruct (scan w _ []); simpl.
    + destruct (cleanup t); discriminate.
    + intros _. exact (Hsound d w Hdec).
  - assert (Hdec : exists d w, decoded t = Returned (d, w) /\
                               total_duration (analyze_single_video t) = d).
    { revert Hst. unfold analyze_single_video.
      destruct (voice_print_exists t); simpl; [|discriminate].
      destruct (decoded t) as [[d w]|msg]; simpl; [|discriminate].
      intros _. exists d, w. split; [reflexivity|].
      destruct (scan w _ []); simpl; [destruct (cleanup t)|]; reflexivity. }
    destruct Hdec as (d & w & Hdec & Htot).
    rewrite (analyze_matched_time t d w Hst Hdec), Htot.
    split; [lia|].
    eapply Qle_trans; [|apply (whole_windows_fit d), (Hsound d w Hdec)].
    rewrite <- Zle_Qle.
    pose proof (filter_length_le (matching w)
                  (range (int_of_float (d / inject_Z SEGMENT_DURATION_SEC)))).
    unfold SEGMENT_DURATION_SEC in *. lia.
Qed.

(** X8. For audio of non-negative duration, the matched duration that
    the worker reports is never negative and never more than the total
    duration it reports; on success it is 3 s per matching window. *)
Theorem analyze_single_video_matched_time (t : task) :
  sound_duration t ->
  let r := analyze_single_video t in
  0 <= theodore_duration r /\
  (inject_Z (theodore_duration r) <= total_duration r)%Q /\
  (forall d w,
     status r = success_status -> decoded t = Returned (d, w) ->
     theodore_duration r
     = 3 * Z.of_nat (length (List.filter (matching w)
           (range (int_of_float (d / inject_Z SEGMENT_DURATION_SEC)))))).
Proof.
  intros Hsound r. subst r.
  destruct (analyze_matched_within t Hsound) as [H0 H1].
  split; [exact H0|]. split; [exact H1|].
  intros d w. apply analyze_matched_time.
Qed.

Lemma analyze_single_video_matched_time_witness :
  sound_duration faulty_task /\
  0 <= theodore_duration (analyze_single_video faulty_task).
Proof.
  assert (H : sound_duration faulty_task).
  { intros d w [= <- _]. discriminate. }
  split; [exact H | exact (proj1 (analyze_single_video_matched_time _ H))].
Defined.

Lemma result_of_matched_within (f : future) :
  sound_duration (f_task f) ->
  0 <= theodore_duration (result_of f) /\
  (inject_Z (theodore_duration (result_of f)) <= total_duration (result_of f))%Q.
Proof.
  intros Hsound. unfold result_of, future_result.
  destruct (f_process f); simpl.
  - now apply analyze_matched_within.
  - split; [lia | apply Qle_refl].
Qed.

Lemma totals_fold (results : list result_dict) :
  Forall (fun r => 0 <= theodore_duration r /\
                   (inject_Z (theodore_duration r) <= total_duration r)%Q)
         results ->
  forall (a : Z) (b : Q), 0 <= a -> (inject_Z a <= b)%Q ->
    0 <= fold_left (fun acc r => acc + theodore_duration r) results a /\
    (inject_Z (fold_left (fun acc r => (acc + theodore_duration r)%Z) results a)
     <= fold_left (fun acc r => acc + total_duration r) results b)%Q.
Proof.
  induction 1 as [|r results [Hr0 Hr] Hall IH]; intros a b Ha Hab; simpl.
  - now split.
  - apply IH; [lia|]. rewrite inject_Z_plus. now apply Qplus_le_compat.
Qed.

Lemma success_count_fold (results : list result_dict) : forall acc,
  fold_left (fun acc r =>
               match status r with
               | success_status => acc + 1
               | error_status => acc
               end) results acc
  = acc + Z.of_nat (count_status success_status results).
Proof.
  unfold count_status.
  induction results as [|r results IH]; intros acc; simpl; [lia|].
  rewrite IH.
  change (has_status success_status r)
    with (match status r with success_status => true | error_status => false end).
  destruct (status r); simpl length; lia.
Qed.

(** X9. The summary of a batch is consistent: the number of successes is
    the number of results of status success, at most the number of videos
    submitted, and, for audio of non-negative duration, the total matched
    time is neither negative nor more than the total duration of the
    videos. *)
Theorem batch_summary_consistent
    (submitted : list future) (results : list result_dict) :
  batch_results submitted results ->
  (forall f, f ∈ submitted -> sound_duration (f_task f)) ->
  success_count results = Z.of_nat (count_status success_status results) /\
  success_count results <= Z.of_nat (length submitted) /\
  0 <= total_theodore_time results /\
  (inject_Z (total_theodore_time results) <= total_video_time results)%Q.
Proof.
  intros (order & Hperm & ->) Hsound. rewrite collect_fold. simpl.
  assert (Hcount : success_count (map result_of order)
                   = Z.of_nat (count_status success_status (map result_of order))).
  { unfold success_count. now rewrite success_count_fold. }
  split; [exact Hcount|]. split.
  - rewrite Hcount. unfold count_status.
    pose proof (filter_length_le (has_status success_status)
                  (map result_of order)) as Hle.
    rewrite length_map, (Permutation_length Hperm) in Hle. lia.
  - apply totals_fold; [|lia | apply Qle_refl].
    apply Forall_forall. intros r Hr.
    apply list_elem_of_In, in_map_iff in Hr as (f & <- & Hf).
    apply result_of_matched_within, Hsound.
    apply list_elem_of_In. eapply Permutation_in; eassumption.
Qed.

Lemma batch_summary_consistent_witness :
  batch_results scenario_E (fold_left collect scenario_E []) /\
  (forall f, f ∈ scenario_E -> sound_duration (f_task f)) /\
  success_count (fold_left collect scenario_E []) <= 3.
Proof.
  assert (H1 : batch_results scenario_E (fold_left collect scenario_E [])).
  { exists scenario_E. split; [apply Permutation_refl | reflexivity]. }
  assert (H2 : forall f, f ∈ scenario_E -> sound_duration (f_task f)).
  { intros f Hf d w. unfold scenario_E in Hf.
    repeat (apply elem_of_cons in Hf as [->|Hf];
            [intros [= <- _]; discriminate|]).
    inversion Hf. }
  split; [exact H1|]. split; [exact H2|].
  exact (proj1 (proj2 (batch_summary_consistent _ _ H1 H2))).
Defined.

Lemma consolidate_nonempty_segments (detections : list Z) :
  ascending detections ->
  Forall (fun seg => fst seg < snd seg)
         (DetectTheodore.consolidate detections).
Proof.
  intros Hasc. apply Forall_forall. intros [s e] Hin.
  apply (consolidate_max_runs detections Hasc) in Hin
    as (a & b & (Hab & _) & -> & ->).
  simpl. lia.
Qed.

(** X10. The segments of a result are non-empty, in order and disjoint:
    every segment, also the only one of a result, has [start < end], and
    each one ends no later than every later one starts. *)
Theorem analyze_single_video_segments_sorted (t : task) :
  let segs := map as_pair (segments (analyze_single_video t)) in
  Forall (fun seg => fst seg < snd seg) segs /\
  StronglySorted (fun x y => snd x <= fst y) segs /\
  StronglySorted before segs.
Proof.
  unfold analyze_single_video.
  destruct (voice_print_exists t); simpl; [|repeat constructor].
  destruct (decoded t) as [[d w]|msg]; simpl; [|repeat constructor].
  destruct (scan w _ []) as [matches|msg] eqn:Hscan; simpl;
    [|repeat constructor].
  apply batch_scan_matches in Hscan. simpl in Hscan. subst matches.
  set (indices := List.filter (matching w)
         (range (int_of_float (d / inject_Z SEGMENT_DURATION_SEC)))).
  assert (Hasc : ascending indices)
    by apply ascending_filter_indices, range_ascending.
  assert (Hs : let segs := map as_pair
                 (consolidate (matches_of (similarity_of w) indices)) in
               Forall (fun seg => fst seg < snd seg) segs /\
               StronglySorted (fun x y => snd x <= fst y) segs /\
               StronglySorted before segs).
  { simpl. rewrite consolidate_matches_of by assumption.
    pose proof (consolidate_sorted indices Hasc) as Hsorted.
    split; [now apply consolidate_nonempty_segments|].
    split; [|assumption].
    clear Hasc. induction Hsorted as [|x l Hl IH Hall]; constructor;
      [assumption|].
    eapply Forall_impl; [exact Hall|]. intros y (_ & Hxy & _). exact Hxy. }
  destruct (cleanup t); exact Hs.
Qed.

End BatchMore.

(** ** More on grouping words (generate_shorts.py) *)

Section SubtitleGrouperMore.
Import GenerateShorts.

Lemma build_groups_fold words_per_group (words : list timed) : forall st,
  let st' := fold_left (group_step words_per_group) words st in
  match current_group st' with
  | [] => groups st'
  | _ :: _ => groups st' ++ [make_group (current_group st')]
  end
  = groups st ++
    map make_group (chunks words_per_group (current_group st) words).
Proof.
  induction words as [|w words IH]; intros [gs cur]; simpl.
  - destruct cur; [now rewrite app_nil_r | reflexivity].
  - specialize (IH (group_step words_per_group (GroupState gs cur) w)).
    simpl in IH. rewrite IH. unfold group_step; simpl.
    destruct (words_per_group <=? _); simpl; [|reflexivity].
    now rewrite <- app_assoc.
Qed.

Lemma build_groups_chunks words words_per_group :
  build_groups words words_per_group
  = map make_group (chunks words_per_group [] words).
Proof.
  unfold build_groups.
  exact (build_groups_fold words_per_group words (GroupState [] [])).
Qed.

Lemma chunks_concat words_per_group (words : list timed) : forall current,
  concat (chunks words_per_group current words) = current ++ words.
Proof.
  induction words as [|w words IH]; intros current; simpl.
  - destruct current; simpl; now rewrite ?app_nil_r.
  - destruct (words_per_group <=? _); simpl; rewrite IH;
      now rewrite <- app_assoc.
Qed.

Lemma chunks_nonempty words_per_group (words : list timed) : forall current,
  Forall (fun chunk => chunk <> []) (chunks words_per_group current words).
Proof.
  induction words as [|w words IH]; intros current; simpl.
  - destruct current; repeat constructor. discriminate.
  - destruct (words_per_group <=? _); [constructor|]; try apply IH.
    now destruct current.
Qed.

Lemma sweep_from_texts (groups : list timed) : forall prev_end,
  map t_text (sweep_from prev_end groups) = map t_text groups.
Proof.
  induction groups as [|g rest IH]; intros pe; simpl; [reflexivity|].
  rewrite IH. now destruct (flt _ _).
Qed.

Lemma sweep_texts (groups : list timed) :
  map t_text (sweep groups) = map t_text groups.
Proof.
  destruct groups as [|g rest]; simpl; [reflexivity|].
  now rewrite sweep_from_texts.
Qed.

Lemma join_app (sep : str) (la lb : list str) :
  la <> [] -> lb <> [] ->
  join sep (la ++ lb) = join sep la ++ sep ++ join sep lb.
Proof.
  intros Ha Hb. induction la as [|x la IH]; [congruence|].
  destruct la as [|y la].
  - simpl. destruct lb; [congruence | reflexivity].
  - change (join sep ((x :: y :: la) ++ lb))
      with (x ++ sep ++ join sep ((y :: la) ++ lb)).
    rewrite IH by discriminate.
    change (join sep (x :: y :: la)) with (x ++ sep ++ join sep (y :: la)).
    now rewrite <- !app_assoc.
Qed.

Lemma join_concat (sep : str) (ls : list (list str)) :
  Forall (fun l => l <> []) ls ->
  join sep (map (join sep) ls) = join sep (concat ls).
Proof.
  induction 1 as [|l ls Hl Hall IH]; [reflexivity|].
  destruct ls as [|l' ls'].
  - simpl. now rewrite app_nil_r.
  - change (join sep (map (join sep) (l :: l' :: ls')))
      with (join sep l ++ sep ++ join sep (map (join sep) (l' :: ls'))).
    rewrite IH.
    change (concat (l :: l' :: ls')) with (l ++ concat (l' :: ls')).
    rewrite join_app; [reflexivity | assumption|].
    apply Forall_cons in Hall as [Hl' _].
    destruct l'; [congruence | discriminate].
Qed.

(** X11. No word is lost, repeated or moved: the texts of the groups,
    joined by spaces, are the words joined by spaces. *)
Theorem group_words_for_display_keeps_text
    (word_timestamps : list timed) (words_per_group : Z) :
  join [SPACE]
    (map t_text (group_words_for_display word_timestamps words_per_group))
  = join [SPACE] (map t_text word_timestamps).
Proof.
  rewrite group_words_for_display_sweep, sweep_texts, build_groups_chunks.
  rewrite map_map.
  change (fun x : list timed => t_text (make_group x))
    with (fun x : list timed => join [SPACE] (map t_text x)).
  rewrite <- (map_map (map t_text) (join [SPACE])).
  rewrite join_concat.
  - rewrite <- concat_map, chunks_concat. reflexivity.
  - apply Forall_forall. intros l Hl.
    apply list_elem_of_In, in_map_iff in Hl as (chunk & <- & Hchunk).
    pose proof (chunks_nonempty words_per_group word_timestamps []) as Hne.
    rewrite Forall_forall in Hne. apply list_elem_of_In, Hne in Hchunk.
    now destruct chunk.
Qed.

Lemma chunks_count words_per_group (words : list timed) : forall current,
  Z.of_nat (length current) < Z.max 1 words_per_group ->
  Z.of_nat (length (chunks words_per_group current words))
  = (Z.of_nat (length current) + Z.of_nat (length words)
     + Z.max 1 words_per_group - 1) / Z.max 1 words_per_group.
Proof.
  set (m := Z.max 1 words_per_group). assert (Hm : 1 <= m) by lia.
  induction words as [|w words IH]; intros current Hcur.
  - cbn [chunks length]. destruct current as [|c current].
    + simpl. symmetry. apply Z.div_small. lia.
    + change (Z.of_nat (length [c :: current])) with 1.
      apply (Z.div_unique _ _ 1 (Z.of_nat (length (c :: current)) - 1));
        simpl length in *; lia.
  - cbn [chunks]. rewrite length_app. cbn [length].
    destruct (Z.leb_spec words_per_group (Z.of_nat (length current + 1))).
    + cbn [length]. rewrite Nat2Z.inj_succ, IH by (simpl; lia).
      assert (Hfull : Z.of_nat (length current) + 1 = m) by lia.
      replace (Z.of_nat (length current) + Z.of_nat (S (length words)) + m - 1)
        with (Z.of_nat (@length timed []) + Z.of_nat (length words) + m - 1
              + 1 * m) by (simpl; lia).
      rewrite Z.div_add by lia. lia.
    + rewrite IH by (rewrite length_app; simpl; lia).
      rewrite length_app. f_equal. simpl. lia.
Qed.

(** X12. The number of groups is the number of words divided by the
    group size, rounded up, a size below 1 counting as 1. *)
Theorem group_words_for_display_count
    (word_timestamps : list timed) (words_per_group : Z) :
  Z.of_nat (length (group_words_for_display word_timestamps words_per_group))
  = (Z.of_nat (length word_timestamps) + Z.max 1 words_per_group - 1)
    / Z.max 1 words_per_group.
Proof.
  rewrite group_words_for_display_sweep, sweep_length, build_groups_chunks.
  rewrite length_map, chunks_count by (simpl; lia). reflexivity.
Qed.

Lemma chunks_first words_per_group (words : list timed) : forall current w,
  head (current ++ words) = Some w ->
  exists chunk rest,
    chunks words_per_group current words = chunk :: rest /\
    head chunk = Some w.
Proof.
  induction words as [|x words IH]; intros current w Hw.
  - rewrite app_nil_r in Hw. simpl.
    destruct current; [discriminate|]. eauto.
  - cbn [chunks]. destruct (words_per_group <=? _).
    + eexists _, _. split; [reflexivity|].
      destruct current; simpl in *; exact Hw.
    + apply IH. now rewrite <- app_assoc.
Qed.

Lemma chunks_last words_per_group (words : list timed) : forall current w,
  exists front chunk,
    chunks words_per_group current (words ++ [w]) = front ++ [chunk ++ [w]].
Proof.
  induction words as [|x words IH]; intros current w.
  - simpl. destruct (words_per_group <=? _).
    + exists [], current. reflexivity.
    + exists [], current. simpl. now destruct current.
  - cbn [app chunks]. destruct (words_per_group <=? _).
    + destruct (IH [] w) as (front & chunk & ->).
      exists ((current ++ [x]) :: front), chunk. reflexivity.
    + apply IH.
Qed.

Lemma make_group_start (chunk : list timed) w :
  head chunk = Some w -> t_start (make_group chunk) = t_start w.
Proof. destruct chunk; [discriminate|]. now intros [= ->]. Qed.

Lemma make_group_end (chunk : list timed) w :
  (t_end w <= t_end (make_group (chunk ++ [w])))%Q.
Proof.
  unfold make_group. rewrite List.last_last. unfold t_end at 2; simpl.
  destruct (flt _ _) eqn:Hlt; [|apply Qle_refl].
  apply flt_true in Hlt. lra.
Qed.

(** X13. The groups span the speech: the first group starts with the
    first word, and the last group ends no earlier than the last word. *)
Theorem group_words_for_display_span
    (word_timestamps : list timed) (words_per_group : Z) :
  let out := group_words_for_display word_timestamps words_per_group in
  (forall w, head word_timestamps = Some w ->
     exists g, head out = Some g /\ t_start g = t_start w) /\
  (forall w, last word_timestamps = Some w ->
     exists g, last out = Some g /\ (t_end w <= t_end g)%Q).
Proof.
  intros out. subst out.
  rewrite group_words_for_display_sweep, build_groups_chunks. split.
  - intros w Hw.
    destruct (chunks_first words_per_group word_timestamps [] w Hw)
      as (chunk & rest & -> & Hchunk).
    simpl. eexists. split; [reflexivity|]. now apply make_group_start.
  - intros w Hw. apply last_Some in Hw as [front ->].
    destruct (chunks_last words_per_group front [] w) as (cs & chunk & ->).
    rewrite map_app. simpl.
    set (groups := map make_group cs ++ [make_group (chunk ++ [w])]).
    assert (Hg : groups !! length (map make_group cs)
                 = Some (make_group (chunk ++ [w]))).
    { unfold groups. rewrite lookup_app_r by lia.
      now rewrite Nat.sub_diag. }
    destruct (sweep_lookup_end _ _ _ Hg) as (g' & Hg' & He & _).
    exists g'. split.
    + rewrite last_lookup, sweep_length. unfold groups at 1.
      rewrite length_app. simpl.
      replace (pred (length (map make_group cs) + 1))
        with (length (map make_group cs)) by lia.
      exact Hg'.
    + rewrite He. apply make_group_end.
Qed.

End SubtitleGrouperMore.

(** ** Cleaning text for a drawtext filter (generate_shorts.py) *)

Section Sanitizer.
Import GenerateShorts.

Lemma sanitize_scrub text : sanitize_text_for_ffmpeg text = strip (scrub text).
Proof. reflexivity. Qed.

Lemma replace_app old new a b :
  replace old new (a ++ b) = replace old new a ++ replace old new b.
Proof. unfold replace. apply flat_map_app. Qed.

Lemma fold_replace_app {A} (f : A -> char) (g : A -> str) (olds : list A) :
  forall a b,
    fold_left (fun clean o => replace (f o) (g o) clean) olds (a ++ b)
    = fold_left (fun clean o => replace (f o) (g o) clean) olds a ++
      fold_left (fun clean o => replace (f o) (g o) clean) olds b.
Proof.
  induction olds as [|o olds IH]; intros a b; cbn [fold_left]; [reflexivity|].
  now rewrite replace_app, IH.
Qed.

Lemma scrub_app a b : scrub (a ++ b) = scrub a ++ scrub b.
Proof.
  unfold scrub.
  rewrite (fold_replace_app (fun c => c) (fun _ => [])), replace_app.
  apply (fold_replace_app fst (fun ar => [snd ar])).
Qed.

Lemma scrub_flat_map text : scrub text = flat_map (fun c => scrub [c]) text.
Proof.
  induction text as [|c text IH]; [reflexivity|].
  change (c :: text) with ([c] ++ text). rewrite scrub_app, IH. reflexivity.
Qed.

Lemma replace_other old new c : c <> old -> replace old new [c] = [c].
Proof.
  intros Hne. unfold replace; simpl.
  destruct (N.eqb_spec c old); [congruence | reflexivity].
Qed.

Lemma fold_replace_other {A} (f : A -> char) (g : A -> str) (olds : list A) c :
  Forall (fun o => c <> f o) olds ->
  fold_left (fun clean o => replace (f o) (g o) clean) olds [c] = [c].
Proof.
  induction 1 as [|o olds Ho Hall IH]; cbn [fold_left]; [reflexivity|].
  now rewrite replace_other.
Qed.

Lemma not_special c :
  is_special c = false -> Forall (fun o => c <> o) specials.
Proof.
  unfold is_special. generalize specials. intros l H.
  induction l as [|o l IH]; simpl in *; [constructor|].
  apply orb_false_iff in H as [Ho Hl].
  constructor; [now apply N.eqb_neq | now apply IH].
Qed.

(** An ordinary character goes through unchanged. *)
Lemma scrub_plain c : is_special c = false -> scrub [c] = [c].
Proof.
  intros H. apply not_special in H. unfold specials in H.
  apply Forall_app in H as [Hrem H].
  apply Forall_cons in H as [Hcomma Hacc].
  unfold scrub.
  rewrite (fold_replace_other (fun c => c) (fun _ => [])) by exact Hrem.
  rewrite replace_other by exact Hcomma.
  apply (fold_replace_other fst (fun ar => [snd ar])).
  apply Forall_forall. intros ar Har. rewrite Forall_forall in Hacc.
  apply Hacc. apply list_elem_of_In, in_map, list_elem_of_In. exact Har.
Qed.

(** A special character is dropped or replaced by ordinary ones. *)
Lemma scrub_special c :
  is_special c = true ->
  forallb (fun d => negb (is_special d)) (scrub [c]) = true.
Proof.
  unfold is_special at 1. intros H. apply existsb_exists in H as (o & Ho & Hc).
  apply N.eqb_eq in Hc. subst o.
  assert (Hall : forallb (fun c => forallb (fun d => negb (is_special d))
                                           (scrub [c])) specials = true)
    by (vm_compute; reflexivity).
  rewrite forallb_forall in Hall. now apply Hall.
Qed.

Lemma scrub_ordinary text :
  Forall (fun d => is_special d = false) (scrub text).
Proof.
  rewrite scrub_flat_map. apply Forall_forall. intros d Hd.
  apply list_elem_of_In, in_flat_map in Hd as (c & _ & Hd).
  destruct (is_special c) eqn:Hc.
  - apply scrub_special in Hc. rewrite forallb_forall in Hc.
    apply Hc in Hd. now apply negb_true_iff in Hd.
  - rewrite scrub_plain in Hd by assumption.
    destruct Hd as [<-|[]]. assumption.
Qed.

Lemma scrub_fixed text :
  Forall (fun d => is_special d = false) text -> scrub text = text.
Proof.
  induction 1 as [|c text Hc Hall IH]; [reflexivity|].
  change (c :: text) with ([c] ++ text).
  now rewrite scrub_app, scrub_plain, IH.
Qed.

Lemma lstrip_suffix s : exists ws, s = ws ++ lstrip s.
Proof.
  induction s as [|c s [ws IH]]; simpl; [now exists []|].
  destruct (isspace c); [|now exists []].
  exists (c :: ws). simpl. now f_equal.
Qed.

Lemma lstrip_starts_tight s : starts_tight (lstrip s).
Proof.
  induction s as [|c s IH]; simpl; [exact I|].
  destruct (isspace c) eqn:Hc; [assumption | exact Hc].
Qed.

Lemma rstrip_prefix s : exists ws, s = rstrip s ++ ws.
Proof.
  unfold rstrip. destruct (lstrip_suffix (rev s)) as [ws Hws].
  exists (rev ws). rewrite <- rev_app_distr, <- Hws. now rewrite rev_involutive.
Qed.

Lemma strip_part s : exists a b, s = a ++ strip s ++ b.
Proof.
  unfold strip. destruct (lstrip_suffix s) as [a Ha].
  destruct (rstrip_prefix (lstrip s)) as [b Hb].
  exists a, b. now rewrite <- Hb.
Qed.

Lemma strip_tight s : starts_tight (strip s) /\ starts_tight (rev (strip s)).
Proof.
  unfold strip. split.
  - destruct (rstrip_prefix (lstrip s)) as [b Hb].
    pose proof (lstrip_starts_tight s) as Ht. rewrite Hb in Ht.
    destruct (rstrip (lstrip s)); [exact I | exact Ht].
  - unfold rstrip. rewrite rev_involutive. apply lstrip_starts_tight.
Qed.

Lemma strip_fixed s :
  starts_tight s -> starts_tight (rev s) -> strip s = s.
Proof.
  intros Hs Hr.
  pose proof (strip_core [] s [] ltac:(constructor) ltac:(constructor) Hs Hr)
    as H.
  simpl in H. now rewrite app_nil_r in H.
Qed.

Lemma sanitize_ordinary text :
  Forall (fun d => is_special d = false) (sanitize_text_for_ffmpeg text).
Proof.
  rewrite sanitize_scrub. destruct (strip_part (scrub text)) as (a & b & Hab).
  pose proof (scrub_ordinary text) as H. rewrite Hab in H.
  apply Forall_app in H as [_ H]. now apply Forall_app in H as [H _].
Qed.

(** X14. The cleaned text is safe to put between quotes in a filter: it
    holds no apostrophe, quote, colon, backslash, bracket, brace,
    parenthesis, semicolon, percent or comma, none of the accented letters
    of the table, and no white space at either end. *)
Theorem sanitize_text_for_ffmpeg_safe (text : str) :
  let clean := sanitize_text_for_ffmpeg text in
  (forall c, c ∈ specials -> contains c clean = false) /\
  starts_tight clean /\ starts_tight (rev clean).
Proof.
  intros clean. subst clean. split; [|apply strip_tight].
  intros c Hc.
  destruct (contains c (sanitize_text_for_ffmpeg text)) eqn:Hin; [|reflexivity].
  exfalso. unfold contains in Hin. apply existsb_exists in Hin as (d & Hd & Hcd).
  apply N.eqb_eq in Hcd. subst d.
  pose proof (sanitize_ordinary text) as Hord. rewrite Forall_forall in Hord.
  apply list_elem_of_In, Hord in Hd.
  unfold is_special in Hd.
  assert (Hs : existsb (N.eqb c) specials = true).
  { apply existsb_exists. exists c. split; [now apply list_elem_of_In|].
    apply N.eqb_refl. }
  congruence.
Qed.

(** X15. Cleaning is idempotent: a cleaned text is left as it is. *)
Theorem sanitize_text_for_ffmpeg_idempotent (text : str) :
  sanitize_text_for_ffmpeg (sanitize_text_for_ffmpeg text)
  = sanitize_text_for_ffmpeg text.
Proof.
  rewrite (sanitize_scrub (sanitize_text_for_ffmpeg text)).
  rewrite scrub_fixed by apply sanitize_ordinary.
  rewrite sanitize_scrub.
  destruct (strip_tight (scrub text)) as [Hs Hr].
  apply strip_fixed; assumption.
Qed.

End Sanitizer.

(** ** From the detector's file to the shorts and their names
       (detect_theodore.py, generate_shorts.py) *)

Section Pipeline.
Import DetectTheodore GenerateShorts.

Lemma format_time_whole (q : Q) :
  (0 <= q)%Q ->
  format_time q
  = format_02d (Qfloor q / 3600) ++ [COLON] ++
    format_02d (Qfloor q mod 3600 / 60) ++ [COLON] ++
    format_02d (Qfloor q mod 60).
Proof.
  intros Hq. apply Qfloor_nonneg in Hq. unfold format_time.
  change (3600%Q) with (Z.pos 3600 # 1). change (60%Q) with (Z.pos 60 # 1).
  rewrite !floordiv_pos, !int_of_float_Z, Qfloor_fmod.
  rewrite (int_of_float_nonneg (fmod q (Z.pos 60 # 1)));
    rewrite Qfloor_fmod; [reflexivity | apply Z.mod_pos_bound; lia].
Qed.

(** X16. [format_time] shows the whole seconds and nothing else: two
    non-negative times are written alike exactly when they have the same
    whole seconds, and the text reads back as them. *)
Theorem format_time_whole_seconds (a b : Q) :
  (0 <= a)%Q -> (0 <= b)%Q ->
  (format_time a = format_time b <-> Qfloor a = Qfloor b) /\
  hms_seconds (format_time a) = Some (Qfloor a).
Proof.
  intros Ha Hb.
  pose proof (hms_seconds_is_hms _ _ (format_time_hms a Ha)) as Hra.
  pose proof (hms_seconds_is_hms _ _ (format_time_hms b Hb)) as Hrb.
  split; [|exact Hra]. split.
  - intros Heq. rewrite Heq in Hra. congruence.
  - intros Heq. rewrite !format_time_whole, Heq by assumption. reflexivity.
Qed.

Lemma format_time_whole_seconds_witness :
  (0 <= 7 # 2)%Q /\ (0 <= 3 # 1)%Q /\
  format_time (7 # 2) = format_time (3 # 1).
Proof.
  assert (Ha : (0 <= 7 # 2)%Q) by discriminate.
  assert (Hb : (0 <= 3 # 1)%Q) by discriminate.
  split; [exact Ha|]. split; [exact Hb|].
  apply (proj1 (format_time_whole_seconds _ _ Ha Hb)). reflexivity.
Defined.

Lemma contains_part c a s b :
  contains c (a ++ s ++ b) = false -> contains c s = false.
Proof.
  rewrite !contains_app. intros H.
  apply orb_false_iff in H as [_ H]. now apply orb_false_iff in H as [H _].
Qed.

Lemma contains_strip c s : contains c s = false -> contains c (strip s) = false.
Proof.
  intros H. destruct (strip_part s) as (a & b & Hab).
  rewrite Hab in H. now apply contains_part in H.
Qed.

Lemma read_line_no_arrow segments line :
  contains ARROW line = false -> read_line segments line = segments.
Proof.
  intros H. unfold read_line. now rewrite contains_strip.
Qed.

Lemma file_lines_after_lines pre rest :
  pre = [] \/ (exists p, pre = p ++ [LF]) ->
  file_lines (pre ++ rest) = file_lines pre ++ file_lines rest.
Proof.
  intros [->|[p ->]]; [reflexivity | apply file_lines_after_line].
Qed.

(** X17. A line without an arrow is skipped and the rest is read as if
    it were not there. *)
Theorem read_timestamps_skips_other_lines (pre junk post : str) :
  pre = [] \/ (exists p, pre = p ++ [LF]) ->
  contains LF junk = false -> contains ARROW junk = false ->
  read_timestamps (Some (pre ++ (junk ++ [LF]) ++ post))
  = read_timestamps (Some (pre ++ post)).
Proof.
  intros Hpre Hlf Harrow. unfold read_timestamps.
  rewrite !(file_lines_after_lines pre) by assumption.
  rewrite file_lines_after_line, file_lines_one_line by assumption.
  rewrite !fold_left_app. simpl.
  rewrite read_line_no_arrow; [reflexivity|].
  rewrite contains_app, Harrow. reflexivity.
Qed.

Lemma read_timestamps_skips_other_lines_witness :
  (@nil char = [] \/ (exists p, @nil char = p ++ [LF])) /\
  contains LF (lit "# note") = false /\
  contains ARROW (lit "# note") = false /\
  read_timestamps (Some ([] ++ (lit "# note" ++ [LF]) ++ lit "1. 00:00:00 "
                         ++ [ARROW] ++ lit " 00:00:06"))
  = [(0, 6)].
Proof.
  assert (H1 : @nil char = [] \/ (exists p, @nil char = p ++ [LF]))
    by (left; reflexivity).
  assert (H2 : contains LF (lit "# note") = false) by reflexivity.
  assert (H3 : contains ARROW (lit "# note") = false) by reflexivity.
  split; [exact H1|]. split; [exact H2|]. split; [exact H3|].
  rewrite (read_timestamps_skips_other_lines _ _ _ H1 H2 H3). reflexivity.
Defined.

Lemma read_timestamps_text (segs : list (Q * Q)) :
  Forall (fun seg => (0 <= fst seg)%Q /\ (0 <= snd seg)%Q) segs ->
  read_timestamps (Some (timestamps_text segs)) = map whole_seconds segs.
Proof.
  intros Hall. unfold read_timestamps, timestamps_text.
  change (header ++ rule ++ ?x)
    with ((removelast (header ++ rule) ++ [LF]) ++ x).
  rewrite file_lines_after_line, fold_left_app.
  change (removelast (header ++ rule) ++ [LF]) with (header ++ rule).
  rewrite read_header.
  now apply (read_segment_lines segs 0 []).
Qed.

Lemma read_timestamps_consolidated (consolidated : list (Z * Z)) :
  Forall (fun seg => 0 <= fst seg /\ 0 <= snd seg) consolidated ->
  read_timestamps (Some (timestamps_text (as_numbers consolidated)))
  = consolidated.
Proof.
  intros Hall. rewrite read_timestamps_text.
  - unfold as_numbers. rewrite map_map.
    rewrite <- (map_id consolidated) at 2.
    apply map_ext. intros [a b]. unfold whole_seconds. cbn [fst snd].
    now rewrite !Qfloor_Z.
  - unfold as_numbers. apply Forall_forall. intros seg Hseg.
    apply list_elem_of_In, in_map_iff in Hseg as ([a b] & <- & Hab).
    rewrite Forall_forall in Hall. apply list_elem_of_In, Hall in Hab.
    simpl in *. change 0%Q with (inject_Z 0). rewrite <- !Zle_Qle. exact Hab.
Qed.

Lemma before_precedes (segs : list (Z * Z)) :
  StronglySorted before segs -> StronglySorted precedes segs.
Proof.
  induction 1 as [|x l Hs IH Hall]; constructor; [assumption|].
  eapply Forall_impl; [exact Hall|]. intros y. unfold before, precedes. lia.
Qed.

(** X18. From the detection to the shorts through the timestamp file:
    [generate_shorts], given the file that the detector wrote for its
    segments, plans the shorts of exactly those segments; they are in
    order and disjoint, last between 3 and 60 s, and each lies inside a
    detected segment. *)
Theorem detection_to_shorts (ws : list window) :
  let detected := detect_theodore_segments ws in
  let file := timestamps_text (as_numbers detected) in
  read_timestamps (Some file) = detected /\
  (detected <> [] ->
   planned_shorts true (Some file) = Some (split_into_shorts detected)) /\
  StronglySorted precedes (split_into_shorts detected) /\
  (forall clip, clip ∈ split_into_shorts detected ->
     3 <= duration clip <= 60 /\
     exists seg, seg ∈ detected /\
                 fst seg <= fst clip /\ snd clip <= snd seg).
Proof.
  intros detected file. subst file.
  assert (Hread : read_timestamps
                    (Some (timestamps_text (as_numbers detected))) = detected).
  { apply read_timestamps_consolidated. apply Forall_forall.
    intros [s e] Hseg. apply detected_segment_bounds in Hseg. simpl. lia. }
  split; [exact Hread|]. split; [|split].
  - intros Hne. unfold planned_shorts. simpl negb. cbv iota.
    rewrite Hread. destruct detected; [congruence | reflexivity].
  - apply split_into_shorts_keeps_order, before_precedes.
    apply detect_theodore_segments_sorted.
  - intros clip Hclip. split.
    + pose proof (split_into_shorts_clip_bounds detected) as Hb.
      rewrite Forall_forall in Hb. now apply Hb.
    + now apply split_into_shorts_within.
Qed.

Lemma format_03d_numeral n : 0 <= n -> numeral (format_03d n) n.
Proof.
  intros Hn. unfold format_03d.
  destruct (Z.ltb_spec n 0); [lia|].
  now apply zfill_numeral, digits_numeral.
Qed.

Lemma digits_prefix_unique c (d1 : str) : forall d2 r1 r2,
  Forall (fun d => isdigit d = true) d1 ->
  Forall (fun d => isdigit d = true) d2 ->
  isdigit c = false ->
  d1 ++ c :: r1 = d2 ++ c :: r2 -> d1 = d2.
Proof.
  induction d1 as [|x d1 IH]; intros d2 r1 r2 H1 H2 Hc Heq.
  - destruct d2 as [|y d2]; [reflexivity|].
    simpl in Heq. injection Heq as <- _.
    apply Forall_cons in H2 as [Hy _]. congruence.
  - apply Forall_cons in H1 as [Hx H1].
    destruct d2 as [|y d2]; simpl in Heq.
    + injection Heq as -> _. congruence.
    + injection Heq as -> Heq. apply Forall_cons in H2 as [_ H2].
      f_equal. eapply IH; eassumption.
Qed.

Lemma output_name_index video_name i j s1 e1 s2 e2 :
  0 <= i -> 0 <= j ->
  output_name video_name i s1 e1 = output_name video_name j s2 e2 -> i = j.
Proof.
  intros Hi Hj Heq. unfold output_name in Heq.
  do 3 apply app_inv_head in Heq.
  destruct (format_03d_numeral i Hi) as (_ & Hdi & Hvi).
  destruct (format_03d_numeral j Hj) as (_ & Hdj & Hvj).
  apply (digits_prefix_unique UNDERSCORE) in Heq;
    [|assumption | assumption | reflexivity].
  rewrite Heq in Hvi. congruence.
Qed.

Lemma NoDup_imap_index {A B} (f : nat -> A -> B) (l : list A) :
  (forall i j x y, f i x = f j y -> i = j) -> NoDup (imap f l).
Proof.
  revert f. induction l as [|a l IH]; intros f Hinj; [constructor|].
  rewrite imap_cons. constructor.
  - intros Hin. apply elem_of_lookup_imap in Hin as (k & y & Heq & _).
    apply Hinj in Heq. discriminate.
  - apply IH. intros i j x y Heq. apply Hinj in Heq. lia.
Qed.

(** X19. No short overwrites another: the file names that one run gives
    to its shorts are pairwise distinct. *)
Theorem output_names_distinct (video_name : str) (shorts : list (Z * Z)) :
  NoDup (output_names video_name shorts).
Proof.
  unfold output_names. apply NoDup_imap_index.
  intros i j x y Heq. apply output_name_index in Heq; lia.
Qed.

End Pipeline.

(** ** The text of an ASS dialogue line (generate_shorts.py) *)

Section AssText.
Import GenerateShorts.

Lemma ass_clean_text_app a b :
  ass_clean_text (a ++ b) = ass_clean_text a ++ ass_clean_text b.
Proof. unfold ass_clean_text. now rewrite !replace_app. Qed.

Lemma ass_clean_text_char c :
  ass_clean_text [c]
  = if ((c =? BACKSLASH) || (c =? LBRACE) || (c =? RBRACE))%N
    then [BACKSLASH; c] else [c].
Proof.
  destruct (N.eqb_spec c BACKSLASH) as [->|H1]; [reflexivity|].
  destruct (N.eqb_spec c LBRACE) as [->|H2]; [reflexivity|].
  destruct (N.eqb_spec c RBRACE) as [->|H3]; [reflexivity|].
  unfold ass_clean_text. now rewrite !replace_other.
Qed.

Lemma ass_clean_text_cons c text :
  ass_clean_text (c :: text)
  = (if ((c =? BACKSLASH) || (c =? LBRACE) || (c =? RBRACE))%N
     then [BACKSLASH; c] else [c]) ++ ass_clean_text text.
Proof.
  change (c :: text) with ([c] ++ text).
  now rewrite ass_clean_text_app, ass_clean_text_char.
Qed.

Lemma unescape_escaped c r : unescape (BACKSLASH :: c :: r) = c :: unescape r.
Proof. reflexivity. Qed.

Lemma unescape_plain c r :
  (c =? BACKSLASH)%N = false -> unescape (c :: r) = c :: unescape r.
Proof. intros H. cbn [unescape]. now rewrite H. Qed.

Lemma braces_escaped_escaped c r :
  braces_escaped (BACKSLASH :: c :: r) = braces_escaped r.
Proof. reflexivity. Qed.

Lemma braces_escaped_plain c r :
  ((c =? BACKSLASH) || (c =? LBRACE) || (c =? RBRACE))%N = false ->
  braces_escaped (c :: r) = braces_escaped r.
Proof.
  intros H. apply orb_false_iff in H as [H H3].
  apply orb_false_iff in H as [H1 H2].
  cbn [braces_escaped]. now rewrite H1, H2, H3.
Qed.

(** X20. The escaping of a dialogue text loses nothing and leaves no bare
    brace: the text is recovered by dropping each announcing backslash, so
    two texts with the same escaped form are the same, and every brace of
    the escaped form has a backslash before it. *)
Theorem ass_clean_text_reversible (text : str) :
  unescape (ass_clean_text text) = text /\
  braces_escaped (ass_clean_text text) = true /\
  (forall other, ass_clean_text other = ass_clean_text text -> other = text).
Proof.
  assert (Hun : forall t, unescape (ass_clean_text t) = t).
  { induction t as [|c t IH]; [reflexivity|].
    rewrite ass_clean_text_cons.
    destruct ((c =? BACKSLASH) || (c =? LBRACE) || (c =? RBRACE))%N eqn:Hesc;
      cbn [app].
    - now rewrite unescape_escaped, IH.
    - apply orb_false_iff in Hesc as [Hesc _].
      apply orb_false_iff in Hesc as [H1 _].
      now rewrite unescape_plain, IH. }
  split; [apply Hun|]. split.
  - induction text as [|c t IH]; [reflexivity|].
    rewrite ass_clean_text_cons.
    destruct ((c =? BACKSLASH) || (c =? LBRACE) || (c =? RBRACE))%N eqn:Hesc;
      cbn [app].
    + now rewrite braces_escaped_escaped.
    + now rewrite braces_escaped_plain.
  - intros other Heq. rewrite <- (Hun other), Heq. apply Hun.
Qed.

End AssText.
